(** * Verification of the process controller of the arc-melting line

    Source: [src/main_process/src/process_control.cpp].

    The file has two parts that carry all the logic:
    - the loop-unrolling sequence compiler ([parseLoopStart], [parseLoopEnd],
      [compileSequence]);
    - the step cursor of [ProcessController] ([initializeSequences],
      [moveToNextStep], [isSequenceCompleted], ...).

    Modelling conventions.
    - [std::string] is [string]; [std::vector<std::string>] is [list string].
    - [int] is [Z]; the only place where its range matters is [std::stoi],
      which throws [std::out_of_range] above [INT_MAX].
    - A C++ exception is a value of [exception]; a function that may throw
      returns [result A].
    - [sequence_[step_index_]] is [std::vector::operator[]]: it has no
      bounds check and is undefined out of range.  The model uses the list
      lookup [!!] and makes the whole call undefined ([None]) there.
    - Memory is unbounded: [std::bad_alloc] and [std::length_error] are not
      modelled. *)

From Stdlib Require Import ZArith Ascii String DecimalString DecimalPos Lia.
From stdpp Require Import base option list strings.

Local Open Scope Z_scope.

(** ** Exceptions *)

(** The exceptions thrown inside [compileSequence].  The four
    [std::runtime_error]s are kept apart by constructor (their [what] text is
    given by [what] below); [stoi_out_of_range] is the [std::out_of_range] of
    [std::stoi]. *)
Inductive exception : Type :=
  | repeat_must_be_positive (line : string)
  | loop_end_without_start (line : string)
  | loop_id_mismatch (expected : Z) (line : string)
  | unclosed_loop (open_id : Z)
  | stoi_out_of_range.

Inductive result (A : Type) : Type :=
  | Return (a : A)
  | Throw (e : exception).
Arguments Return {A} a.
Arguments Throw {A} e.

#[global] Instance result_ret : MRet result := fun A a => Return a.
#[global] Instance result_bind : MBind result := fun A B f m =>
  match m with
  | Return a => f a
  | Throw e => Throw e
  end.

Definition returns {A} (m : result A) : bool :=
  match m with Return _ => true | Throw _ => false end.

(** [std::to_string] on an [int]. *)
Definition to_string (z : Z) : string := NilZero.string_of_int (Z.to_int z).

(** [e.what()] *)
Definition what (e : exception) : string :=
  match e with
  | repeat_must_be_positive line => "loop repeat must be > 0: " +:+ line
  | loop_end_without_start line => "loop_end without loop start: " +:+ line
  | loop_id_mismatch expected line =>
      "loop id mismatch: expected loop" +:+ to_string expected +:+ "_end, got " +:+ line
  | unclosed_loop open_id => "unclosed loop: loop" +:+ to_string open_id +:+ "_..."
  | stoi_out_of_range => "stoi"
  end.

(** ** The two regular expressions *)

(** [\s] is [Ascii.is_space] (tab, line feed, vertical tab, form feed,
    carriage return, space) and [\d] is a decimal digit, [Ascii.is_nat]. *)
Definition is_digit (c : ascii) : bool := bool_decide (is_Some (Ascii.is_nat c)).

(** [\s*] at the front of a line. *)
Fixpoint skip_spaces (s : string) : string :=
  match s with
  | String c s' => if Ascii.is_space c then skip_spaces s' else s
  | EmptyString => s
  end.

(** [\s*$] : what is left of the line is white space only. *)
Fixpoint all_spaces (s : string) : bool :=
  match s with
  | String c s' => Ascii.is_space c && all_spaces s'
  | EmptyString => true
  end.

(** [(\d+)] : the longest run of digits and what follows it. *)
Fixpoint span_digits (s : string) : string * string :=
  match s with
  | String c s' =>
      if is_digit c then let '(ds, rest) := span_digits s' in (String c ds, rest)
      else (EmptyString, s)
  | EmptyString => (EmptyString, EmptyString)
  end.

(** A literal of the pattern: what follows it, when [s] starts with it. *)
Fixpoint strip_prefix (literal s : string) : option string :=
  match literal, s with
  | EmptyString, _ => Some s
  | String a literal', String b s' =>
      if Ascii.eqb a b then strip_prefix literal' s' else None
  | String _ _, EmptyString => None
  end.

Definition nonempty (s : string) : bool :=
  match s with EmptyString => false | String _ _ => true end.

(** [std::regex_match(line, m, re)] with [re = ^\s*loop(\d+)_(\d+)\s*$]:
    the two captures [m[1]], [m[2]] when the whole line matches.  The
    character classes of consecutive parts of the pattern are disjoint, so
    the match is found by reading each part as far as it goes. *)
Definition match_loop_start (line : string) : option (string * string) :=
  s1 ← strip_prefix "loop" (skip_spaces line);
  let '(m1, s2) := span_digits s1 in
  s3 ← strip_prefix "_" s2;
  let '(m2, s4) := span_digits s3 in
  if nonempty m1 && nonempty m2 && all_spaces s4 then Some (m1, m2) else None.

(** [std::regex_match(line, m, re)] with [re = ^\s*loop(\d+)_end\s*$]:
    the capture [m[1]] when the whole line matches. *)
Definition match_loop_end (line : string) : option string :=
  s1 ← strip_prefix "loop" (skip_spaces line);
  let '(m1, s2) := span_digits s1 in
  s3 ← strip_prefix "_end" s2;
  if nonempty m1 && all_spaces s3 then Some m1 else None.

(** ** [std::stoi] on a run of digits *)

(** [int] has 32 bits on the platforms the controller is built for. *)
Definition INT_MAX : Z := 2147483647.

Definition digit_value (c : ascii) : Z := Z.of_nat (default 0%nat (Ascii.is_nat c)).

Fixpoint decimal_value (acc : Z) (digits : string) : Z :=
  match digits with
  | String c ds => decimal_value (10 * acc + digit_value c) ds
  | EmptyString => acc
  end.

(** [std::stoi] is only ever applied to a capture [(\d+)]: no sign, no
    white space, at least one digit.  It throws [std::out_of_range] when the
    number does not fit an [int]. *)
Definition stoi (digits : string) : result Z :=
  let v := decimal_value 0 digits in
  if bool_decide (v ≤ INT_MAX) then Return v else Throw stoi_out_of_range.

(** ** [parseLoopStart], [parseLoopEnd] *)

(** The [bool] result and the out-parameters [id], [repeat] become an
    [option]; [None] is [return false]. *)
Definition parseLoopStart (line : string) : result (option (Z * Z)) :=
  match match_loop_start line with
  | None => Return None
  | Some (m1, m2) =>
      id ← stoi m1;
      repeat ← stoi m2;
      Return (Some (id, repeat))
  end.

Definition parseLoopEnd (line : string) : result (option Z) :=
  match match_loop_end line with
  | None => Return None
  | Some m1 => id ← stoi m1; Return (Some id)
  end.

(** ** [compileSequence] *)

Module LoopFrame.
Record t : Type := mk { id : Z; repeat : Z; block : list string }.

Definition push_back (line : string) (f : t) : t :=
  mk (id f) (repeat f) (block f ++ [line]).

Definition insert_end (lines : list string) (f : t) : t :=
  mk (id f) (repeat f) (block f ++ lines).
End LoopFrame.

(** The [for (int i = 0; i < frame.repeat; ++i)] loop, [n] iterations left. *)
Fixpoint expand_loop (n : nat) (block expanded : list string) : list string :=
  match n with
  | O => expanded
  | S n' => expand_loop n' block (expanded ++ block)
  end.

Definition expand (frame : LoopFrame.t) : list string :=
  expand_loop (Z.to_nat (LoopFrame.repeat frame)) (LoopFrame.block frame) [].

(** The locals [out] and [stack] of [compileSequence].  The head of the
    list [stack] is [stack.back()]. *)
Record compile_state : Type := mk_state {
  out : list string;
  stack : list LoopFrame.t
}.

(** One iteration of [for (const auto& line : raw)]. *)
Definition compile_line (line : string) (st : compile_state) : result compile_state :=
  start ← parseLoopStart line;
  match start with
  | Some (id, rep) =>
      if bool_decide (rep ≤ 0) then Throw (repeat_must_be_positive line)
      else Return (mk_state (out st) (LoopFrame.mk id rep [] :: stack st))
  | None =>
      stop ← parseLoopEnd line;
      match stop with
      | Some id =>
          match stack st with
          | [] => Throw (loop_end_without_start line)
          | frame :: stack' =>
              if bool_decide (LoopFrame.id frame ≠ id)
              then Throw (loop_id_mismatch (LoopFrame.id frame) line)
              else
                (* repeat-expand this frame.block *)
                let expanded := expand frame in
                match stack' with
                | [] => Return (mk_state (out st ++ expanded) [])
                | top :: below =>
                    Return (mk_state (out st) (LoopFrame.insert_end expanded top :: below))
                end
          end
      | None =>
          (* normal instruction line *)
          match stack st with
          | [] => Return (mk_state (out st ++ [line]) [])
          | top :: below =>
              Return (mk_state (out st) (LoopFrame.push_back line top :: below))
          end
      end
  end.

Fixpoint compile_lines (raw : list string) (st : compile_state) : result compile_state :=
  match raw with
  | [] => Return st
  | line :: raw' => st' ← compile_line line st; compile_lines raw' st'
  end.

Definition compileSequence (raw : list string) : result (list string) :=
  st ← compile_lines raw (mk_state [] []);
  match stack st with
  | [] => Return (out st)
  | frame :: _ => Throw (unclosed_loop (LoopFrame.id frame))
  end.

(** ** The device manager

    [DeviceStateManager] and [Situation] are declared outside this file; the
    controller only uses the members below.  They are taken as an interface:
    every statement about the controller holds for every implementation. *)
Class DeviceStateManager (D : Type) : Type := {
  Situation : Type;
  STANDBY : Situation;
  (** the default-constructed member [devices_manager_] *)
  default_manager : D;
  (** [devices_manager_.initializing = b] *)
  set_initializing : bool → D → D;
  addDevice : string → D → D;
  (** mutates the manager and reports success *)
  updateDeviceStatus : string → D → bool * D;
  checkDevices : Situation → D → bool
}.

(** ** [ProcessController] *)

(** What [std::ifstream file(secquence_file_)] gives: [None] when the file
    cannot be opened, otherwise the lines that [std::getline] yields. *)
Definition sequence_file : Type := option (list string).

(** The brace-initialised [raw] of the load-failure branch.  There is no
    comma between the last two literals, so the compiler joins them. *)
Definition fallback_raw : list string :=
  [ "slider_init cobotta_init weighing_init plc_init";
    "slider_shelf_1 plc_buzz";
    "weighing_open slider_weight_pos cobotta_test";
    "slider_init cobotta_init weighing_init plc_init" +:+ "finished" ].

(** [line.empty() || line[0] == '#'] *)
Definition is_blank_or_comment (line : string) : bool :=
  match line with
  | EmptyString => true
  | String c _ => bool_decide (c = "#"%char)
  end.

(** The [while (std::getline(file, line))] loop. *)
Fixpoint read_lines (lines : list string) (raw : list string) : list string :=
  match lines with
  | [] => raw
  | line :: lines' =>
      if is_blank_or_comment line then read_lines lines' raw
      else read_lines lines' (raw ++ [line])
  end.

Section Controller.
Context {D : Type} {M : DeviceStateManager D}.

(** The data members that this file uses.  They are declared in the header
    [main_process/process_control.hpp]; the cursor [step_index_] only counts
    up from 0 and is compared with [sequence_.size()], so it is a natural
    number here. *)
Record ProcessController : Type := mk_controller {
  current_step_ : string;
  step_index_ : nat;
  sequence_ : list string;
  devices_manager_ : D
}.

Definition set_sequence (s : list string) (pc : ProcessController) : ProcessController :=
  mk_controller (current_step_ pc) (step_index_ pc) s (devices_manager_ pc).

Definition set_manager (d : D) (pc : ProcessController) : ProcessController :=
  mk_controller (current_step_ pc) (step_index_ pc) (sequence_ pc) d.

(** The returned text and the manager after the update. *)
Definition updateDeviceStatuses (command : string) (d : D) : string * D :=
  let '(message, d') := updateDeviceStatus command d in
  (if message then "update device status success"
   else "update device status error", d').

(** [file] is the outcome of opening [secquence_file_]. *)
Definition initializeSequences (file : sequence_file) (pc : ProcessController)
    : ProcessController :=
  let raw : list string := [] in
  match file with
  | None =>
      let raw := fallback_raw in
      (* return; *)
      pc
  | Some lines =>
      let raw := read_lines lines raw in
      (* 1) compile *)
      let pc :=
        match compileSequence raw with
        | Return compiled => set_sequence compiled pc
        | Throw e => set_sequence ([] ++ ["finished"]) pc
        end in
      (* 2) guarantee finished *)
      if bool_decide (sequence_ pc = []) || bool_decide (last (sequence_ pc) ≠ Some "finished")
      then set_sequence (sequence_ pc ++ ["finished"]) pc
      else pc
  end.

Definition getCurrentStep (pc : ProcessController) : string := current_step_ pc.

Definition isReadyToNextStep (pc : ProcessController) : bool :=
  checkDevices STANDBY (devices_manager_ pc).

Definition isSequenceCompleted (pc : ProcessController) : bool :=
  bool_decide (length (sequence_ pc) ≤ step_index_ pc)%nat.

(** [None]: the call indexes [sequence_] out of range. *)
Definition moveToNextStep (pc : ProcessController) : option ProcessController :=
  if bool_decide (step_index_ pc = 0%nat) && bool_decide (current_step_ pc ≠ "init") then
    let '(_, d) := updateDeviceStatuses (current_step_ pc) (devices_manager_ pc) in
    Some (set_manager d pc)
  else
    step ← sequence_ pc !! step_index_ pc;
    let '(_, d) := updateDeviceStatuses step (devices_manager_ pc) in
    Some (mk_controller step (S (step_index_ pc)) (sequence_ pc) d).

(** The member initialisers and the device registration of the
    constructor, up to the call of [initializeSequences]. *)
Definition registered_manager : D :=
  set_initializing false
    (addDevice "plc"
      (addDevice "cobotta"
        (addDevice "slider"
          (addDevice "weighing"
            (set_initializing true default_manager))))).

Definition initial_controller (command : string) : ProcessController :=
  mk_controller command 0 [] registered_manager.

(** [ProcessController::ProcessController(command)] *)
Definition new_ProcessController (command : string) (file : sequence_file)
    : option ProcessController :=
  moveToNextStep (initializeSequences file (initial_controller command)).

(** [n] calls of [moveToNextStep] in a row. *)
Fixpoint moveToNextStep_n (n : nat) (pc : ProcessController) : option ProcessController :=
  match n with
  | O => Some pc
  | S n' => pc' ← moveToNextStep pc; moveToNextStep_n n' pc'
  end.
End Controller.

Arguments ProcessController D : clear implicits.

(** ** Notions used to state the properties *)

(** *** The language of the two regular expressions, spelled out *)

Fixpoint all_digits (s : string) : bool :=
  match s with
  | String c s' => is_digit c && all_digits s'
  | EmptyString => true
  end.

(** What follows a part of the pattern starts with no character of it. *)
Definition starts_with (class : ascii → bool) (s : string) : bool :=
  match s with
  | String c _ => class c
  | EmptyString => false
  end.

(** [\d+] *)
Definition digits (s : string) : Prop := all_digits s = true ∧ s ≠ "".

(** [\s*loop\d+_\d+\s*] with the two runs of digits named. *)
Definition loop_start_pattern (line m1 m2 : string) : Prop :=
  ∃ ws1 ws2, line = ws1 +:+ "loop" +:+ m1 +:+ "_" +:+ m2 +:+ ws2
    ∧ all_spaces ws1 = true ∧ digits m1 ∧ digits m2 ∧ all_spaces ws2 = true.

(** [\s*loop\d+_end\s*] with the run of digits named. *)
Definition loop_end_pattern (line m1 : string) : Prop :=
  ∃ ws1 ws2, line = ws1 +:+ "loop" +:+ m1 +:+ "_end" +:+ ws2
    ∧ all_spaces ws1 = true ∧ digits m1 ∧ all_spaces ws2 = true.

(** A loop marker is a line that matches one of the two patterns. *)
Definition is_loop_marker (line : string) : Prop :=
  (∃ m1 m2, loop_start_pattern line m1 m2) ∨ (∃ m1, loop_end_pattern line m1).

(** The marker lines as one writes them. *)
Definition loop_start_line (id repeat : Z) : string :=
  "loop" +:+ to_string id +:+ "_" +:+ to_string repeat.

Definition loop_end_line (id : Z) : string :=
  "loop" +:+ to_string id +:+ "_end".

(** A plain instruction: neither [parseLoopStart] nor [parseLoopEnd]
    accepts the line. *)
Definition plain (line : string) : Prop :=
  parseLoopStart line = Return None ∧ parseLoopEnd line = Return None.

(** *** Where a line or an expansion goes *)

(** The enclosing scope is the block of the innermost open frame, or [out]
    when no loop is open. *)
Definition emit (lines : list string) (st : compile_state) : compile_state :=
  match stack st with
  | [] => mk_state (out st ++ lines) []
  | top :: below => mk_state (out st) (LoopFrame.insert_end lines top :: below)
  end.

(** [block] repeated [n] times, one copy after the other. *)
Definition repeated (n : nat) (block : list string) : list string :=
  concat (replicate n block).

(** The meaning of a well-formed run of lines, by its structure: a plain
    instruction stands for itself, runs follow one another, and a loop stands
    for its body repeated. *)
Inductive expands_to : list string → list string → Prop :=
  | expands_nil : expands_to [] []
  | expands_plain line : plain line → expands_to [line] [line]
  | expands_app raw1 raw2 lines1 lines2 :
      expands_to raw1 lines1 → expands_to raw2 lines2 →
      expands_to (raw1 ++ raw2) (lines1 ++ lines2)
  | expands_loop l_start l_end id n body lines :
      parseLoopStart l_start = Return (Some (id, n)) → 1 ≤ n →
      parseLoopEnd l_end = Return (Some id) →
      expands_to body lines →
      expands_to (l_start :: body ++ [l_end]) (repeated (Z.to_nat n) lines).

(** The state of the compiler after the lines [raw], by the structure of
    [raw]: well-formed lines at top level, then, for each loop still open, its
    start and the well-formed lines read since. *)
Inductive open_run : list string → compile_state → Prop :=
  | run_top raw lines :
      expands_to raw lines → open_run raw (mk_state lines [])
  | run_open raw o stack l_start id n body lines :
      open_run raw (mk_state o stack) →
      parseLoopStart l_start = Return (Some (id, n)) → 1 ≤ n →
      expands_to body lines →
      open_run (raw ++ l_start :: body) (mk_state o (LoopFrame.mk id n lines :: stack)).

(** The loop written [loop<id>_<n>] around [block], closed by
    [loop<id>_end], compiles to [block] repeated [n] times. *)
Definition loop_expands_block (id n : Z) (block : list string) : Prop :=
  compileSequence (loop_start_line id n :: block ++ [loop_end_line id])
  = Return (repeated (Z.to_nat n) block).

(** *** The structural errors of the sequence language *)

(** The three kinds of line of the grammar; the numbers are read as
    naturals of any size. *)
Inductive marker : Type :=
  | loop_start (id repeat : Z)
  | loop_end (id : Z)
  | instruction.

Definition classify (line : string) : marker :=
  match match_loop_start line with
  | Some (m1, m2) => loop_start (decimal_value 0 m1) (decimal_value 0 m2)
  | None =>
      match match_loop_end line with
      | Some m1 => loop_end (decimal_value 0 m1)
      | None => instruction
      end
  end.

Inductive structural_error : Type :=
  | InvalidRepeat
  | UnmatchedLoopEnd
  | LoopIdMismatch
  | UnclosedLoop.

(** The four errors as the specification words them: scan the lines with
    the stack [open] of the ids of the open loops; the first error met is the
    outcome, [None] when the input is well formed. *)
Fixpoint structural_check (raw : list string) (open : list Z) : option structural_error :=
  match raw with
  | [] => match open with [] => None | _ :: _ => Some UnclosedLoop end
  | line :: raw' =>
      match classify line with
      | loop_start id repeat =>
          if bool_decide (repeat ≤ 0) then Some InvalidRepeat
          else structural_check raw' (id :: open)
      | loop_end id =>
          match open with
          | [] => Some UnmatchedLoopEnd
          | top :: below =>
              if bool_decide (top ≠ id) then Some LoopIdMismatch
              else structural_check raw' below
          end
      | instruction => structural_check raw' open
      end
  end.

(** What makes [compileSequence] throw: the four structural errors and a
    number in a marker that does not fit an [int]. *)
Inductive failure : Type :=
  | Structural (e : structural_error)
  | NumberOutOfRange.

Definition failure_of (e : exception) : failure :=
  match e with
  | repeat_must_be_positive _ => Structural InvalidRepeat
  | loop_end_without_start _ => Structural UnmatchedLoopEnd
  | loop_id_mismatch _ _ => Structural LoopIdMismatch
  | unclosed_loop _ => Structural UnclosedLoop
  | stoi_out_of_range => NumberOutOfRange
  end.

(** A number of a marker of [line] is above [INT_MAX]. *)
Definition number_out_of_range (line : string) : bool :=
  match classify line with
  | loop_start id repeat => bool_decide (INT_MAX < id) || bool_decide (INT_MAX < repeat)
  | loop_end id => bool_decide (INT_MAX < id)
  | instruction => false
  end.

(** [structural_check] with the range of [int] taken into account: a marker
    with a number out of range fails the scan at its line. *)
Fixpoint diagnose (raw : list string) (open : list Z) : option failure :=
  match raw with
  | [] => match open with [] => None | _ :: _ => Some (Structural UnclosedLoop) end
  | line :: raw' =>
      if number_out_of_range line then Some NumberOutOfRange
      else
        match classify line with
        | loop_start id repeat =>
            if bool_decide (repeat ≤ 0) then Some (Structural InvalidRepeat)
            else diagnose raw' (id :: open)
        | loop_end id =>
            match open with
            | [] => Some (Structural UnmatchedLoopEnd)
            | top :: below =>
                if bool_decide (top ≠ id) then Some (Structural LoopIdMismatch)
                else diagnose raw' below
            end
        | instruction => diagnose raw' open
        end
  end.

(** The failure condition read without the range of [int]: the compiler
    throws exactly on the inputs with a structural error. *)
Definition fails_iff_structural_error (raw : list string) : Prop :=
  returns (compileSequence raw) = false ↔ is_Some (structural_check raw []).

(** *** Readings of the cursor properties *)

Section CursorReadings.
Context {D : Type} {M : DeviceStateManager D}.

(** The manager after the dispatch of [command]. *)
Definition dispatched (command : string) (d : D) : D :=
  (updateDeviceStatuses command d).2.

(** The advance branch of [moveToNextStep] is taken. *)
Definition advances (pc : ProcessController D) : Prop :=
  step_index_ pc ≠ 0%nat ∨ current_step_ pc = "init".

(** The re-dispatch of the constructor's command happens on one call
    only: the call after it takes the first element of the sequence. *)
Definition redispatches_once (pc : ProcessController D) : Prop :=
  ∃ pc1 pc2 step,
    moveToNextStep pc = Some pc1 ∧ step_index_ pc1 = 0%nat
    ∧ sequence_ pc !! 0%nat = Some step
    ∧ moveToNextStep pc1 = Some pc2
    ∧ current_step_ pc2 = step ∧ step_index_ pc2 = 1%nat.

(** After construction and [n] further calls the cursor has not gone
    back and is within the sequence. *)
Definition cursor_stays_in_range (command : string) (file : sequence_file)
    (n : nat) : Prop :=
  ∃ pc0 pc, new_ProcessController command file = Some pc0
    ∧ moveToNextStep_n n pc0 = Some pc
    ∧ (step_index_ pc0 ≤ step_index_ pc ≤ length (sequence_ pc))%nat.

(** The fallback is installed: [sequence_] ends with the sentinel and has
    an init step for each device. *)
Definition has_init_step (device : string) (s : list string) : Prop :=
  ∃ step, step ∈ s ∧ (device +:+ "_init") ∈ String.words step.

Definition fallback_installed (pc : ProcessController D) : Prop :=
  sequence_ pc ≠ []
  ∧ Forall (λ device, has_init_step device (sequence_ pc))
      ["weighing"; "slider"; "cobotta"; "plc"]
  ∧ last (sequence_ pc) = Some "finished".
End CursorReadings.

(** *** A device manager to run the controller on

    It keeps a journal of what it was asked and answers every update with
    its [healthy] flag. *)
Module Journal.
Record t : Type := mk {
  healthy : bool;
  initializing : bool;
  devices : list string;
  commands : list string
}.

Definition fresh (healthy : bool) : t := mk healthy false [] [].

Definition manager (h : bool) : DeviceStateManager t := {|
  Situation := unit;
  STANDBY := tt;
  default_manager := fresh h;
  set_initializing b d := mk (healthy d) b (devices d) (commands d);
  addDevice name d := mk (healthy d) (initializing d) (devices d ++ [name]) (commands d);
  updateDeviceStatus command d :=
    (healthy d, mk (healthy d) (initializing d) (devices d) (commands d ++ [command]));
  checkDevices _ d := healthy d
|}.
End Journal.

(** The manager whose updates succeed is the one used when none is named. *)
#[global] Instance healthy_manager : DeviceStateManager Journal.t := Journal.manager true.

(** *** Readings of the loader and of runs of the controller *)

(** A line that the loader passes on: not empty and not starting with [#]. *)
Definition kept (line : string) : Prop := is_blank_or_comment line = false.

#[global] Instance kept_dec (line : string) : Decision (kept line).
Proof. unfold kept. apply _. Defined.

Section RunReadings.
Context {D : Type} {M : DeviceStateManager D}.

(** The manager after the dispatch of [steps], one after the other. *)
Definition dispatched_all (steps : list string) (d : D) : D :=
  foldl (λ d step, dispatched step d) d steps.

(** The sequence that the constructor installs when the file opens. *)
Definition installed_sequence (lines : list string) : list string :=
  sequence_ (initializeSequences (Some lines) (initial_controller "init")).
End RunReadings.

(** Case analysis on the condition of an [if] of the goal. *)
Ltac case_if :=
  match goal with
  | |- context [if ?b then _ else _] => destruct b eqn:?
  end.

(** * Properties of the sequence compiler *)

(** ** The recognisers accept the language of the regular expressions *)

Lemma append_cons c (s t : string) : String c s +:+ t = String c (s +:+ t).
Proof. reflexivity. Qed.

Lemma append_empty (t : string) : "" +:+ t = t.
Proof. reflexivity. Qed.

Lemma space_is_not_digit c : Ascii.is_space c = true → is_digit c = false.
Proof. destruct c as [[] [] [] [] [] [] [] []]; by vm_compute. Qed.

Lemma strip_prefix_Some literal s s' :
  strip_prefix literal s = Some s' ↔ s = literal +:+ s'.
Proof.
  revert s. induction literal as [|a literal IH]; intros s; simpl.
  - rewrite ?append_empty. split; congruence.
  - rewrite ?append_cons. destruct s as [|b s]; [split; congruence|].
    destruct (Ascii.eqb_spec a b) as [-> | Hne].
    + rewrite IH. split; congruence.
    + split; congruence.
Qed.

Lemma strip_prefix_app literal s : strip_prefix literal (literal +:+ s) = Some s.
Proof. by apply strip_prefix_Some. Qed.

#[global] Arguments strip_prefix : simpl never.

Lemma skip_spaces_split line :
  ∃ ws, line = ws +:+ skip_spaces line ∧ all_spaces ws = true.
Proof.
  induction line as [|c line (ws & Hline & Hws)]; simpl.
  - by exists "".
  - destruct (Ascii.is_space c) eqn:Hc.
    + exists (String c ws). rewrite ?append_cons, <-Hline. simpl. by rewrite Hc.
    + by exists "".
Qed.

Lemma skip_spaces_app ws s :
  all_spaces ws = true → starts_with Ascii.is_space s = false →
  skip_spaces (ws +:+ s) = s.
Proof.
  intros Hws Hs. induction ws as [|c ws IH]; simpl in *.
  - rewrite ?append_empty. destruct s as [|c s]; [done|]. simpl in *. by rewrite Hs.
  - apply andb_true_iff in Hws as [Hc Hws]. rewrite ?append_cons. simpl.
    rewrite Hc. auto.
Qed.

Lemma span_digits_split s m rest :
  span_digits s = (m, rest) →
  s = m +:+ rest ∧ all_digits m = true ∧ starts_with is_digit rest = false.
Proof.
  revert m rest. induction s as [|c s IH]; intros m rest; simpl.
  - by intros [= <- <-].
  - destruct (is_digit c) eqn:Hc.
    + destruct (span_digits s) as [ds rest'] eqn:Hspan. intros [= <- <-].
      destruct (IH ds rest') as (-> & Hds & Hrest); [done|].
      rewrite ?append_cons. simpl. by rewrite Hc.
    + intros [= <- <-]. by rewrite ?append_empty.
Qed.

Lemma span_digits_app m rest :
  all_digits m = true → starts_with is_digit rest = false →
  span_digits (m +:+ rest) = (m, rest).
Proof.
  intros Hm Hrest. induction m as [|c m IH]; simpl in *.
  - rewrite ?append_empty. destruct rest as [|c rest]; [done|]. simpl in *. by rewrite Hrest.
  - apply andb_true_iff in Hm as [Hc Hm]. rewrite ?append_cons. simpl.
    by rewrite Hc, IH.
Qed.

Lemma all_spaces_starts_with_digit s :
  all_spaces s = true → starts_with is_digit s = false.
Proof.
  destruct s as [|c s]; simpl; [done|].
  intros [Hc _]%andb_true_iff. by apply space_is_not_digit.
Qed.

Lemma nonempty_true s : nonempty s = true ↔ s ≠ "".
Proof. by destruct s. Qed.

(** [match_loop_start] finds a match, and its captures, exactly on the
    lines of the form [\s*loop\d+_\d+\s*]. *)
Lemma match_loop_start_spec line m1 m2 :
  match_loop_start line = Some (m1, m2) ↔ loop_start_pattern line m1 m2.
Proof.
  unfold match_loop_start, loop_start_pattern, digits. split.
  - destruct (skip_spaces_split line) as (ws1 & Hline & Hws1).
    destruct (strip_prefix "loop" (skip_spaces line)) as [s1|] eqn:Hloop; [|done].
    simpl. apply strip_prefix_Some in Hloop.
    destruct (span_digits s1) as [d1 s2] eqn:Hd1.
    apply span_digits_split in Hd1 as (-> & Hd1 & _).
    destruct (strip_prefix "_" s2) as [s3|] eqn:Hsep; simpl; [|done].
    apply strip_prefix_Some in Hsep as ->.
    destruct (span_digits s3) as [d2 s4] eqn:Hd2.
    apply span_digits_split in Hd2 as (-> & Hd2 & _).
    destruct (nonempty d1) eqn:Hn1; [|done].
    destruct (nonempty d2) eqn:Hn2; [|done].
    destruct (all_spaces s4) eqn:Hws2; [|done].
    intros [= <- <-]. exists ws1, s4.
    apply nonempty_true in Hn1, Hn2. rewrite Hline at 1. by rewrite Hloop.
  - intros (ws1 & ws2 & -> & Hws1 & [Hd1 Hn1] & [Hd2 Hn2] & Hws2).
    rewrite skip_spaces_app by done.
    rewrite strip_prefix_app. simpl.
    rewrite span_digits_app by done.
    rewrite strip_prefix_app. simpl.
    rewrite span_digits_app by auto using all_spaces_starts_with_digit.
    apply nonempty_true in Hn1, Hn2. by rewrite Hn1, Hn2, Hws2.
Qed.

(** [match_loop_end] finds a match, and its capture, exactly on the lines
    of the form [\s*loop\d+_end\s*]. *)
Lemma match_loop_end_spec line m1 :
  match_loop_end line = Some m1 ↔ loop_end_pattern line m1.
Proof.
  unfold match_loop_end, loop_end_pattern, digits. split.
  - destruct (skip_spaces_split line) as (ws1 & Hline & Hws1).
    destruct (strip_prefix "loop" (skip_spaces line)) as [s1|] eqn:Hloop; [|done].
    simpl. apply strip_prefix_Some in Hloop.
    destruct (span_digits s1) as [d1 s2] eqn:Hd1.
    apply span_digits_split in Hd1 as (-> & Hd1 & _).
    destruct (strip_prefix "_end" s2) as [s3|] eqn:Hsep; simpl; [|done].
    apply strip_prefix_Some in Hsep as ->.
    destruct (nonempty d1) eqn:Hn1; [|done].
    destruct (all_spaces s3) eqn:Hws2; [|done].
    intros [= <-]. exists ws1, s3.
    apply nonempty_true in Hn1. rewrite Hline at 1. by rewrite Hloop.
  - intros (ws1 & ws2 & -> & Hws1 & [Hd1 Hn1] & Hws2).
    rewrite skip_spaces_app by done.
    rewrite strip_prefix_app. simpl.
    rewrite span_digits_app by done.
    rewrite strip_prefix_app. simpl.
    apply nonempty_true in Hn1. by rewrite Hn1, Hws2.
Qed.

(** No line matches both patterns. *)
Lemma match_loop_end_not_start line m1 :
  match_loop_end line = Some m1 → match_loop_start line = None.
Proof.
  unfold match_loop_end, match_loop_start.
  destruct (strip_prefix "loop" (skip_spaces line)) as [s1|]; [|done]. simpl.
  destruct (span_digits s1) as [d1 s2].
  destruct (strip_prefix "_end" s2) as [s3|] eqn:Hsep; [|done].
  apply strip_prefix_Some in Hsep as ->. intros _. simpl.
  by destruct (nonempty d1).
Qed.

(** ** [std::stoi], [parseLoopStart], [parseLoopEnd] *)

Lemma decimal_value_nonneg acc m : 0 ≤ acc → 0 ≤ decimal_value acc m.
Proof.
  revert acc. induction m as [|c m IH]; intros acc Hacc; simpl; [done|].
  apply IH. unfold digit_value. lia.
Qed.

Lemma stoi_cases m :
  stoi m = (if bool_decide (INT_MAX < decimal_value 0 m) then Throw stoi_out_of_range
            else Return (decimal_value 0 m)).
Proof. unfold stoi. repeat case_bool_decide; done || lia. Qed.

(** The three kinds of line, as the two parsers see them. *)
Lemma parse_view line :
  match classify line with
  | loop_start id rep =>
      0 ≤ rep
      ∧ parseLoopStart line
        = (if number_out_of_range line then Throw stoi_out_of_range
           else Return (Some (id, rep)))
  | loop_end id =>
      parseLoopStart line = Return None
      ∧ parseLoopEnd line
        = (if number_out_of_range line then Throw stoi_out_of_range
           else Return (Some id))
  | instruction =>
      parseLoopStart line = Return None ∧ parseLoopEnd line = Return None
  end.
Proof.
  unfold number_out_of_range, classify, parseLoopStart, parseLoopEnd.
  destruct (match_loop_start line) as [[m1 m2]|] eqn:Hstart.
  - split; [by apply decimal_value_nonneg|].
    rewrite !stoi_cases. by repeat case_bool_decide.
  - destruct (match_loop_end line) as [m1|] eqn:Hend; [|done].
    split; [done|]. rewrite stoi_cases. by case_bool_decide.
Qed.

Lemma plain_classify line : plain line ↔ classify line = instruction.
Proof.
  unfold plain. pose proof (parse_view line) as Hview.
  destruct (classify line) as [id rep | id |].
  - destruct Hview as [_ ->]. split; [|done]. intros [Hstart _].
    by destruct (number_out_of_range line).
  - destruct Hview as [_ ->]. split; [|done]. intros [_ Hend].
    by destruct (number_out_of_range line).
  - done.
Qed.

Lemma classify_marker line : classify line ≠ instruction ↔ is_loop_marker line.
Proof.
  unfold classify, is_loop_marker. split.
  - destruct (match_loop_start line) as [[m1 m2]|] eqn:Hstart.
    { intros _. left. exists m1, m2. by apply match_loop_start_spec. }
    destruct (match_loop_end line) as [m1|] eqn:Hend; [|done].
    intros _. right. exists m1. by apply match_loop_end_spec.
  - intros [(m1 & m2 & Hstart) | (m1 & Hend)].
    + apply match_loop_start_spec in Hstart. by rewrite Hstart.
    + apply match_loop_end_spec in Hend.
      by rewrite (match_loop_end_not_start _ _ Hend), Hend.
Qed.

(** ** One line of [compileSequence] *)

Lemma emit_nil st : emit [] st = st.
Proof.
  destruct st as [o [|[id rep block] below]]; unfold emit, LoopFrame.insert_end; simpl;
    by rewrite app_nil_r.
Qed.

Lemma emit_emit lines1 lines2 st :
  emit lines2 (emit lines1 st) = emit (lines1 ++ lines2) st.
Proof.
  destruct st as [o [|[id rep block] below]]; unfold emit, LoopFrame.insert_end; simpl;
    by rewrite app_assoc.
Qed.

Lemma emit_ids lines st :
  LoopFrame.id <$> stack (emit lines st) = LoopFrame.id <$> stack st.
Proof. by destruct st as [o [|[id rep block] below]]. Qed.

Lemma expand_loop_repeated n block expanded :
  expand_loop n block expanded = expanded ++ repeated n block.
Proof.
  revert expanded. induction n as [|n IH]; intros expanded; simpl.
  - unfold repeated. simpl. by rewrite app_nil_r.
  - rewrite IH. unfold repeated. simpl. by rewrite app_assoc.
Qed.

Lemma expand_repeated frame :
  expand frame = repeated (Z.to_nat (LoopFrame.repeat frame)) (LoopFrame.block frame).
Proof. unfold expand. by rewrite expand_loop_repeated. Qed.

Lemma length_repeated n block : length (repeated n block) = (n * length block)%nat.
Proof.
  unfold repeated. induction n as [|n IH]; simpl; [done|].
  rewrite length_app. lia.
Qed.

(** [compile_line] by the kind of the line. *)
Lemma compile_line_view line st :
  compile_line line st
  = if number_out_of_range line then Throw stoi_out_of_range
    else
      match classify line with
      | loop_start id rep =>
          if bool_decide (rep ≤ 0) then Throw (repeat_must_be_positive line)
          else Return (mk_state (out st) (LoopFrame.mk id rep [] :: stack st))
      | loop_end id =>
          match stack st with
          | [] => Throw (loop_end_without_start line)
          | frame :: below =>
              if bool_decide (LoopFrame.id frame ≠ id)
              then Throw (loop_id_mismatch (LoopFrame.id frame) line)
              else Return (emit (expand frame) (mk_state (out st) below))
          end
      | instruction => Return (emit [line] st)
      end.
Proof.
  unfold compile_line. pose proof (parse_view line) as Hview.
  destruct (classify line) as [id rep | id |] eqn:Hkind.
  - destruct Hview as [_ ->]. by destruct (number_out_of_range line).
  - destruct Hview as [-> ->]. simpl.
    destruct (number_out_of_range line); simpl; [done|].
    destruct (stack st) as [|frame [|top below]]; [done|..]; by case_bool_decide.
  - destruct Hview as [-> ->].
    assert (number_out_of_range line = false) as ->.
    { unfold number_out_of_range. by rewrite Hkind. }
    simpl. unfold emit. by destruct (stack st).
Qed.

(** ** The loop over the lines *)

Lemma compile_lines_app raw1 raw2 st :
  compile_lines (raw1 ++ raw2) st
  = (st' ← compile_lines raw1 st; compile_lines raw2 st').
Proof.
  revert st. induction raw1 as [|line raw1 IH]; intros st; simpl; [done|].
  destruct (compile_line line st) as [st'|e]; simpl; [apply IH | done].
Qed.

(** Plain instructions go to the enclosing scope, in order. *)
Lemma compile_lines_plain block st :
  Forall plain block → compile_lines block st = Return (emit block st).
Proof.
  intros Hplain. revert st.
  induction Hplain as [|line block Hline _ IH]; intros st; simpl.
  - by rewrite emit_nil.
  - apply plain_classify in Hline. rewrite compile_line_view.
    unfold number_out_of_range. rewrite Hline. simpl.
    by rewrite IH, emit_emit.
Qed.

(** The scan of [diagnose] follows the compiler line by line: the ids of
    the open frames are the stack of the scan. *)
Lemma compile_lines_diagnose raw st :
  match compile_lines raw st with
  | Return st' =>
      diagnose raw (LoopFrame.id <$> stack st)
      = match stack st' with
        | [] => None
        | _ :: _ => Some (Structural UnclosedLoop)
        end
  | Throw e => diagnose raw (LoopFrame.id <$> stack st) = Some (failure_of e)
  end.
Proof.
  revert st. induction raw as [|line raw IH]; intros st; simpl.
  - by destruct (stack st).
  - rewrite compile_line_view.
    destruct (number_out_of_range line); simpl; [done|].
    destruct (classify line) as [id rep | id |].
    + case_bool_decide; simpl; [done|].
      apply (IH (mk_state (out st) (LoopFrame.mk id rep [] :: stack st))).
    + destruct (stack st) as [|frame below] eqn:Hstack; simpl; [done|].
      case_bool_decide; simpl; [done|].
      specialize (IH (emit (expand frame) (mk_state (out st) below))).
      by rewrite emit_ids in IH.
    + specialize (IH (emit [line] st)). by rewrite emit_ids in IH.
Qed.

(** Without a number above [INT_MAX] the scan is the one of the four
    structural errors. *)
Lemma diagnose_structural raw open :
  Forall (λ line, number_out_of_range line = false) raw →
  diagnose raw open = Structural <$> structural_check raw open.
Proof.
  intros Hfit. revert open.
  induction Hfit as [|line raw Hline _ IH]; intros open; simpl.
  - by destruct open.
  - rewrite Hline. destruct (classify line) as [id rep | id |]; [..|done].
    + by case_bool_decide.
    + destruct open as [|top below]; [done|]. by case_bool_decide.
Qed.

(** The lines that reach the output or a block are no markers. *)
Lemma compile_lines_no_marker raw st st' :
  compile_lines raw st = Return st' →
  Forall (λ line, ¬ is_loop_marker line) (out st) →
  Forall (λ frame, Forall (λ line, ¬ is_loop_marker line) (LoopFrame.block frame))
    (stack st) →
  Forall (λ line, ¬ is_loop_marker line) (out st').
Proof.
  revert st. induction raw as [|line raw IH]; intros st; simpl.
  - by intros [= <-].
  - rewrite compile_line_view.
    destruct (number_out_of_range line); simpl; [done|].
    destruct (classify line) as [id rep | id |] eqn:Hkind.
    + case_bool_decide; simpl; [done|].
      intros Hrun Hout Hstack. apply (IH _ Hrun); simpl; [done|].
      by constructor.
    + destruct (stack st) as [|frame below] eqn:Hstack; simpl; [done|].
      case_bool_decide; simpl; [done|].
      intros Hrun Hout [Hframe Hbelow]%Forall_cons.
      assert (Forall (λ line, ¬ is_loop_marker line) (expand frame)) as Hexpanded.
      { rewrite expand_repeated. unfold repeated.
        apply Forall_concat, Forall_replicate, Hframe. }
      apply (IH _ Hrun); unfold emit; destruct below as [|top below']; simpl.
      * by apply Forall_app.
      * done.
      * done.
      * apply Forall_cons in Hbelow as [Htop Hbelow']. constructor; [|done].
        simpl. by apply Forall_app.
    + assert (¬ is_loop_marker line) as Hline.
      { rewrite <-classify_marker. by rewrite Hkind; intros []. }
      intros Hrun Hout Hstack.
      apply (IH _ Hrun); unfold emit; destruct (stack st) as [|top below]; simpl.
      * apply Forall_app. by split; [|constructor].
      * done.
      * done.
      * apply Forall_cons in Hstack as [Htop Hbelow]. constructor; [|done].
        simpl. apply Forall_app. by split; [|constructor].
Qed.

(** A loop around a body whose lines give [lines] to the enclosing scope
    gives [lines], [n] times over, to its own enclosing scope. *)
Lemma compile_lines_loop l_start l_end id n body lines :
  parseLoopStart l_start = Return (Some (id, n)) →
  1 ≤ n →
  parseLoopEnd l_end = Return (Some id) →
  (∀ st, compile_lines body st = Return (emit lines st)) →
  ∀ st, compile_lines (l_start :: body ++ [l_end]) st
        = Return (emit (repeated (Z.to_nat n) lines) st).
Proof.
  intros Hstart Hn Hend Hbody st. simpl.
  (* the loop start opens a frame *)
  rewrite (compile_line_view l_start).
  pose proof (parse_view l_start) as Hview_start.
  destruct (classify l_start) as [id' n' | id' |];
    [|destruct Hview_start as [Hnone _]; congruence..].
  destruct Hview_start as [_ Hstart']. rewrite Hstart in Hstart'.
  destruct (number_out_of_range l_start); [done|].
  injection Hstart' as <- <-.
  rewrite bool_decide_eq_false_2 by lia. simpl.
  (* the body fills it *)
  rewrite compile_lines_app, Hbody. simpl.
  (* the loop end closes and expands it *)
  rewrite (compile_line_view l_end).
  pose proof (parse_view l_end) as Hview_end.
  destruct (classify l_end) as [id' n' | id' |].
  - destruct Hview_end as [_ Hstart']. unfold parseLoopEnd in Hend.
    destruct (match_loop_end l_end) as [m1|] eqn:Hm; [|done].
    apply match_loop_end_not_start in Hm.
    unfold parseLoopStart in Hstart'. rewrite Hm in Hstart'.
    by destruct (number_out_of_range l_end).
  - destruct Hview_end as [_ Hend']. rewrite Hend in Hend'.
    destruct (number_out_of_range l_end); [done|].
    injection Hend' as <-. unfold emit at 1. simpl.
    rewrite bool_decide_eq_false_2 by auto.
    rewrite expand_repeated. simpl. by destruct st.
  - destruct Hview_end as [_ Hnone]. congruence.
Qed.

(** The compiler computes the meaning of every well-formed run of lines,
    in every scope; loops nested to any depth are expanded from the inside
    out. *)
Lemma compile_lines_expands_to raw lines :
  expands_to raw lines → ∀ st, compile_lines raw st = Return (emit lines st).
Proof.
  induction 1 as [| line Hline | raw1 raw2 lines1 lines2 _ IH1 _ IH2
                  | l_start l_end id n body lines Hstart Hn Hend _ IH]; intros st.
  - by rewrite emit_nil.
  - by apply compile_lines_plain, Forall_singleton.
  - rewrite compile_lines_app, IH1. simpl. by rewrite IH2, emit_emit.
  - by apply (compile_lines_loop _ _ id).
Qed.

Lemma compileSequence_expands_to raw lines :
  expands_to raw lines → compileSequence raw = Return lines.
Proof.
  intros Hraw. unfold compileSequence.
  by rewrite (compile_lines_expands_to _ _ Hraw).
Qed.

(** Conversely, every input that compiles is well formed, and the
    compiled sequence is its meaning. *)
Lemma open_run_emit raw st body lines :
  open_run raw st → expands_to body lines →
  open_run (raw ++ body) (emit lines st).
Proof.
  intros Hrun Hbody. inversion Hrun as [raw' lines' Hraw | raw' o stk l_start id n
    body' lines' Hbelow Hstart Hn Hbody']; subst; unfold emit; simpl.
  - apply run_top. by apply expands_app.
  - rewrite <-app_assoc. simpl.
    apply (run_open _ _ _ _ id n); [done..|]. by apply expands_app.
Qed.

Lemma open_run_compile_line raw line st st' :
  open_run raw st → compile_line line st = Return st' →
  open_run (raw ++ [line]) st'.
Proof.
  intros Hrun. rewrite compile_line_view.
  pose proof (parse_view line) as Hview.
  destruct (number_out_of_range line); [done|].
  destruct (classify line) as [id rep | id |] eqn:Hkind.
  - destruct Hview as [_ Hstart]. case_bool_decide; [done|]. intros [= <-].
    destruct st as [o stk]. simpl.
    apply (run_open _ _ _ _ id rep); [done | done | lia | constructor].
  - destruct Hview as [_ Hend].
    destruct (stack st) as [|frame below] eqn:Hstack; [done|].
    case_bool_decide as Hid; [done|]. intros [= <-].
    destruct st as [o stk]. simpl in *. subst stk.
    inversion Hrun as [| raw' o' stk' l_start id' n body lines
      Hbelow Hstart Hn Hbody]; subst.
    rewrite expand_repeated. simpl. rewrite <-app_assoc. simpl.
    apply open_run_emit; [done|].
    apply (expands_loop _ _ id'); [done..| |done].
    exact Hend.
  - intros [= <-]. apply open_run_emit; [done|].
    by apply expands_plain, plain_classify.
Qed.

Lemma open_run_compile_lines raw1 raw2 st st' :
  open_run raw1 st → compile_lines raw2 st = Return st' →
  open_run (raw1 ++ raw2) st'.
Proof.
  revert raw1 st. induction raw2 as [|line raw2 IH]; intros raw1 st Hrun; simpl.
  - intros [= <-]. by rewrite app_nil_r.
  - destruct (compile_line line st) as [st1|e] eqn:Hline; [|done]. simpl.
    intros Hrest. rewrite (cons_middle line raw1 raw2), app_assoc.
    apply (IH _ st1); [|done]. by apply (open_run_compile_line _ _ st).
Qed.

(** The compiler returns [lines] exactly on the well-formed inputs whose
    meaning is [lines]. *)
Lemma compileSequence_Return_iff raw lines :
  compileSequence raw = Return lines ↔ expands_to raw lines.
Proof.
  split; [|apply compileSequence_expands_to].
  unfold compileSequence. intros Hcompiled.
  destruct (compile_lines raw (mk_state [] [])) as [st'|e] eqn:Hrun; [|done].
  simpl in Hcompiled.
  apply (open_run_compile_lines [] raw) in Hrun; [|apply run_top, expands_nil].
  destruct st' as [o [|frame stk]]; simpl in *; [|done].
  injection Hcompiled as <-. by inversion Hrun.
Qed.

(** ** Markers written in decimal are read back *)

Lemma string_of_uint_digits d : all_digits (NilEmpty.string_of_uint d) = true.
Proof. induction d; simpl; auto. Qed.

Lemma decimal_value_of_uint_acc d acc :
  decimal_value (Z.pos acc) (NilEmpty.string_of_uint d) = Z.pos (Pos.of_uint_acc d acc).
Proof.
  revert acc. induction d as [|d IH|d IH|d IH|d IH|d IH|d IH|d IH|d IH|d IH|d IH];
    intros acc; simpl; [done|..]; rewrite <-IH; f_equal;
    unfold digit_value; simpl; lia.
Qed.

Lemma decimal_value_of_uint d :
  decimal_value 0 (NilEmpty.string_of_uint d) = Z.of_N (Pos.of_uint d).
Proof.
  induction d as [|d IH|d IH|d IH|d IH|d IH|d IH|d IH|d IH|d IH|d IH];
    simpl; [done | exact IH | ..]; apply decimal_value_of_uint_acc.
Qed.

Lemma to_string_spec z :
  0 ≤ z → digits (to_string z) ∧ decimal_value 0 (to_string z) = z.
Proof.
  intros Hz. unfold to_string, digits. destruct z as [|p|p]; [done| |lia].
  simpl. pose proof (Unsigned.to_uint_nonnil p) as Hnonnil.
  unfold NilZero.string_of_uint.
  destruct (Pos.to_uint p) as [|d|d|d|d|d|d|d|d|d|d] eqn:Hp; [done|..];
    rewrite <-Hp; (split; [split|]);
    try apply string_of_uint_digits;
    try (by rewrite Hp);
    by rewrite decimal_value_of_uint, Unsigned.of_to.
Qed.

Lemma append_empty_r (s : string) : s +:+ "" = s.
Proof. induction s as [|c s IH]; [done|]. by rewrite append_cons, IH. Qed.

Lemma parseLoopStart_line id rep :
  0 ≤ id ≤ INT_MAX → 0 ≤ rep ≤ INT_MAX →
  parseLoopStart (loop_start_line id rep) = Return (Some (id, rep)).
Proof.
  intros [Hid0 Hid] [Hrep0 Hrep].
  destruct (to_string_spec id Hid0) as [Hdid Hvid].
  destruct (to_string_spec rep Hrep0) as [Hdrep Hvrep].
  assert (match_loop_start (loop_start_line id rep)
          = Some (to_string id, to_string rep)) as Hmatch.
  { apply match_loop_start_spec. exists "", "".
    by rewrite append_empty, append_empty_r. }
  unfold parseLoopStart. rewrite Hmatch, !stoi_cases, Hvid, Hvrep.
  by rewrite !bool_decide_eq_false_2 by lia.
Qed.

Lemma parseLoopEnd_line id :
  0 ≤ id ≤ INT_MAX → parseLoopEnd (loop_end_line id) = Return (Some id).
Proof.
  intros [Hid0 Hid]. destruct (to_string_spec id Hid0) as [Hdid Hvid].
  assert (match_loop_end (loop_end_line id) = Some (to_string id)) as Hmatch.
  { apply match_loop_end_spec. exists "", "". by rewrite append_empty. }
  unfold parseLoopEnd. rewrite Hmatch, stoi_cases, Hvid.
  by rewrite bool_decide_eq_false_2 by lia.
Qed.

(** A loop start whose id or repeat count is above [INT_MAX] makes
    [std::stoi] throw, and with it the compiler, whatever follows. *)
Lemma parseLoopStart_line_out_of_range id rep :
  0 ≤ id → 0 ≤ rep → INT_MAX < id ∨ INT_MAX < rep →
  parseLoopStart (loop_start_line id rep) = Throw stoi_out_of_range.
Proof.
  intros Hid0 Hrep0 Hbig.
  destruct (to_string_spec id Hid0) as [Hdid Hvid].
  destruct (to_string_spec rep Hrep0) as [Hdrep Hvrep].
  assert (match_loop_start (loop_start_line id rep)
          = Some (to_string id, to_string rep)) as Hmatch.
  { apply match_loop_start_spec. exists "", "".
    by rewrite append_empty, append_empty_r. }
  unfold parseLoopStart. rewrite Hmatch, !stoi_cases, Hvid, Hvrep.
  repeat case_bool_decide; simpl; (done || lia).
Qed.

Lemma compile_lines_start_out_of_range id rep rest st :
  0 ≤ id → 0 ≤ rep → INT_MAX < id ∨ INT_MAX < rep →
  compile_lines (loop_start_line id rep :: rest) st = Throw stoi_out_of_range.
Proof.
  intros Hid0 Hrep0 Hbig. simpl. unfold compile_line.
  by rewrite parseLoopStart_line_out_of_range.
Qed.

(** ** The compiler claims *)

(** C5: [loop1_2 x loop2_2 y loop2_end loop1_end] compiles to
    [x y y x y y].  When the inner loop closes, its expansion [y y] is
    appended to the block of the outer loop, which is not expanded yet: the
    open frame holds [x y y]; the outer loop end then repeats that block
    twice. *)
Theorem nested_loops_compose :
  compileSequence ["loop1_2"; "x"; "loop2_2"; "y"; "loop2_end"; "loop1_end"]
  = Return ["x"; "y"; "y"; "x"; "y"; "y"]
  ∧ compile_lines ["loop1_2"; "x"; "loop2_2"; "y"; "loop2_end"] (mk_state [] [])
    = Return (mk_state [] [LoopFrame.mk 1 2 ["x"; "y"; "y"]])
  ∧ compile_line "loop1_end" (mk_state [] [LoopFrame.mk 1 2 ["x"; "y"; "y"]])
    = Return (mk_state ["x"; "y"; "y"; "x"; "y"; "y"] []).
Proof. split; [|split]; reflexivity. Qed.

(** C6, amended: [compileSequence] throws exactly when the scan of the
    input meets a failure, and the exception thrown is of the kind met
    first: a marker with a number above [INT_MAX] ([std::stoi] throws), a
    loop start with a repeat count of 0, a loop end with no open loop, a loop
    end whose id is not the one of the innermost open loop, or an open loop
    at the end of the input.  On an input whose marker numbers all fit an
    [int], these are the four structural errors.  A call that throws returns
    no list. *)
Theorem compileSequence_failure_cases (raw : list string) :
  match compileSequence raw with
  | Return _ => diagnose raw [] = None
  | Throw e => diagnose raw [] = Some (failure_of e)
  end
  ∧ (returns (compileSequence raw) = false ↔ is_Some (diagnose raw []))
  ∧ (Forall (λ line, number_out_of_range line = false) raw →
     diagnose raw [] = Structural <$> structural_check raw []).
Proof.
  assert (match compileSequence raw with
          | Return _ => diagnose raw [] = None
          | Throw e => diagnose raw [] = Some (failure_of e)
          end) as Hcases.
  { unfold compileSequence.
    pose proof (compile_lines_diagnose raw (mk_state [] [])) as Hscan.
    destruct (compile_lines raw (mk_state [] [])) as [st'|e]; simpl in *; [|done].
    by destruct (stack st'). }
  split; [done|]. split; [|apply diagnose_structural].
  destruct (compileSequence raw) as [compiled|e]; rewrite Hcases; simpl.
  - split; [done|]. by intros [? [=]].
  - split; eauto.
Qed.

(** C8, amended: for every id from 0 to [INT_MAX], every repeat count
    [n] from 1 to [INT_MAX] and every block of [k] plain instructions, the
    lines [loop<id>_<n>], the block, [loop<id>_end] give the enclosing scope
    the block [n] times over, one copy after the other, [n * k] lines; at top
    level that list is the compiled sequence.  The same holds for every pair
    of marker lines that the parsers read as [(id, n)] and [id] (white space
    around them, leading zeros).  When the id or the count written in the
    loop start is above [INT_MAX], [std::stoi] throws and nothing is
    compiled. *)
Theorem loop_contributes_repeated_block
    (id n : Z) (block : list string) (st : compile_state) :
  0 ≤ id → 1 ≤ n → Forall plain block →
  (id ≤ INT_MAX → n ≤ INT_MAX →
     compile_lines (loop_start_line id n :: block ++ [loop_end_line id]) st
       = Return (emit (repeated (Z.to_nat n) block) st)
     ∧ length (repeated (Z.to_nat n) block) = (Z.to_nat n * length block)%nat
     ∧ compileSequence (loop_start_line id n :: block ++ [loop_end_line id])
       = Return (repeated (Z.to_nat n) block)
     ∧ ∀ l_start l_end,
         parseLoopStart l_start = Return (Some (id, n)) →
         parseLoopEnd l_end = Return (Some id) →
         compile_lines (l_start :: block ++ [l_end]) st
           = Return (emit (repeated (Z.to_nat n) block) st)
         ∧ compileSequence (l_start :: block ++ [l_end])
           = Return (repeated (Z.to_nat n) block))
  ∧ (INT_MAX < id ∨ INT_MAX < n →
     compile_lines (loop_start_line id n :: block ++ [loop_end_line id]) st
       = Throw stoi_out_of_range
     ∧ compileSequence (loop_start_line id n :: block ++ [loop_end_line id])
       = Throw stoi_out_of_range).
Proof.
  intros Hid0 Hn Hblock.
  assert (∀ l_start l_end,
            parseLoopStart l_start = Return (Some (id, n)) →
            parseLoopEnd l_end = Return (Some id) →
            (∀ st, compile_lines (l_start :: block ++ [l_end]) st
                   = Return (emit (repeated (Z.to_nat n) block) st))
            ∧ compileSequence (l_start :: block ++ [l_end])
              = Return (repeated (Z.to_nat n) block)) as Hlines.
  { intros l_start l_end Hstart Hend.
    assert (∀ st, compile_lines (l_start :: block ++ [l_end]) st
                  = Return (emit (repeated (Z.to_nat n) block) st)) as Hrun.
    { apply (compile_lines_loop _ _ id); [done | lia | done |].
      intros st'. by apply compile_lines_plain. }
    split; [done|]. unfold compileSequence. by rewrite Hrun. }
  split.
  - intros Hid Hmax.
    destruct (Hlines (loop_start_line id n) (loop_end_line id)) as [Hrun Hcompiled].
    { apply parseLoopStart_line; lia. }
    { apply parseLoopEnd_line; lia. }
    split; [apply Hrun|]. split; [apply length_repeated|]. split; [done|].
    intros l_start l_end Hstart Hend.
    destruct (Hlines l_start l_end Hstart Hend) as [Hrun' Hcompiled'].
    split; [apply Hrun' | done].
  - intros Hbig.
    assert (∀ st, compile_lines (loop_start_line id n :: block ++ [loop_end_line id]) st
                  = Throw stoi_out_of_range) as Hthrow.
    { intros st'. apply compile_lines_start_out_of_range; [done | lia | done]. }
    split; [apply Hthrow|]. unfold compileSequence. by rewrite Hthrow.
Qed.

(** C10: no line of a compiled sequence is a loop marker. *)
Theorem compiled_sequence_has_no_marker (raw compiled : list string) :
  compileSequence raw = Return compiled →
  Forall (λ line, ¬ is_loop_marker line) compiled.
Proof.
  unfold compileSequence. intros Hcompiled.
  destruct (compile_lines raw (mk_state [] [])) as [st'|e] eqn:Hrun; [|done].
  simpl in Hcompiled. destruct (stack st'); [|done].
  injection Hcompiled as <-.
  by apply (compile_lines_no_marker _ _ _ Hrun).
Qed.

(** ** The compiler claims on concrete inputs *)

(** The four rejections, with the text of the exception. *)
Example rejection_examples :
  compileSequence ["loop1_0"; "a"; "loop1_end"]
    = Throw (repeat_must_be_positive "loop1_0")
  ∧ compileSequence ["loop1_end"] = Throw (loop_end_without_start "loop1_end")
  ∧ compileSequence ["loop1_3"; "a"; "loop2_end"]
    = Throw (loop_id_mismatch 1 "loop2_end")
  ∧ compileSequence ["loop1_3"; "a"] = Throw (unclosed_loop 1)
  ∧ what (loop_id_mismatch 1 "loop2_end")
    = "loop id mismatch: expected loop1_end, got loop2_end"
  ∧ what (unclosed_loop 1) = "unclosed loop: loop1_...".
Proof. repeat split. Qed.

(** White space around a marker and leading zeros are accepted; a sign or
    an inner space makes the line a plain instruction. *)
Example marker_examples :
  parseLoopStart "  loop007_12 " = Return (Some (7, 12))
  ∧ parseLoopEnd "loop7_end" = Return (Some 7)
  ∧ parseLoopStart "loop1_-2" = Return None
  ∧ parseLoopStart "loop 1_2" = Return None
  ∧ parseLoopStart "loop1_2147483647" = Return (Some (1, 2147483647))
  ∧ parseLoopStart "loop1_2147483648" = Throw stoi_out_of_range.
Proof. repeat split. Qed.


(** The repeat count below exceeds every [int]: the input is well formed
    for the grammar, and [std::stoi] throws. *)
Lemma compile_fails_without_structural_error :
  ¬ fails_iff_structural_error ["loop1_99999999999999999999"; "x"; "loop1_end"].
Proof.
  intros [Hfails _].
  destruct Hfails as [e He]; [by vm_compute|].
  vm_compute in He. discriminate He.
Qed.

Lemma compileSequence_failure_cases_witness :
  Forall (λ line, number_out_of_range line = false) ["loop1_3"; "a"; "loop2_end"]
  ∧ compileSequence ["loop1_3"; "a"; "loop2_end"]
    = Throw (loop_id_mismatch 1 "loop2_end")
  ∧ diagnose ["loop1_3"; "a"; "loop2_end"] []
    = Structural <$> structural_check ["loop1_3"; "a"; "loop2_end"] [].
Proof.
  assert (Forall (λ line, number_out_of_range line = false)
            ["loop1_3"; "a"; "loop2_end"]) as Hfit
    by (repeat constructor).
  split; [exact Hfit|]. split; [reflexivity|].
  apply (compileSequence_failure_cases ["loop1_3"; "a"; "loop2_end"]), Hfit.
Defined.

(** The repeat count 2147483648 is one above [INT_MAX]: the loop start
    matches the pattern, [std::stoi] throws on its second number, and the loop
    around [a] is not expanded. *)
Lemma loop_with_repeat_above_int_max_throws :
  ¬ loop_expands_block 1 2147483648 ["a"].
Proof.
  unfold loop_expands_block. intros Hexpands.
  assert (compileSequence (loop_start_line 1 2147483648 :: ["a"] ++ [loop_end_line 1])
          = Throw stoi_out_of_range) as Hthrow by (by vm_compute).
  rewrite Hthrow in Hexpands. discriminate Hexpands.
Qed.

(** The single loop [loop1_3] around [a b]. *)
Lemma loop_contributes_repeated_block_witness :
  0 ≤ 1 ∧ 1 ≤ 3 ∧ Forall plain ["a"; "b"] ∧ 1 ≤ INT_MAX ∧ 3 ≤ INT_MAX
  ∧ loop_start_line 1 3 = "loop1_3" ∧ loop_end_line 1 = "loop1_end"
  ∧ compileSequence (loop_start_line 1 3 :: ["a"; "b"] ++ [loop_end_line 1])
    = Return ["a"; "b"; "a"; "b"; "a"; "b"].
Proof.
  assert (Forall plain ["a"; "b"]) as Hblock by (repeat constructor).
  assert (0 ≤ 1) as Hid0 by lia. assert (1 ≤ 3) as Hn by lia.
  assert (1 ≤ INT_MAX) as Hid by (unfold INT_MAX; lia).
  assert (3 ≤ INT_MAX) as Hmax by (unfold INT_MAX; lia).
  split; [exact Hid0|]. split; [exact Hn|]. split; [exact Hblock|].
  split; [exact Hid|]. split; [exact Hmax|].
  split; [reflexivity|]. split; [reflexivity|].
  destruct (loop_contributes_repeated_block 1 3 ["a"; "b"] (mk_state [] [])
              Hid0 Hn Hblock) as [Hfits _].
  destruct (Hfits Hid Hmax) as (_ & _ & Hcompiled & _).
  exact Hcompiled.
Defined.

Lemma compiled_sequence_has_no_marker_witness :
  compileSequence ["loop1_2"; "x"; "loop2_2"; "y"; "loop2_end"; "loop1_end"]
    = Return ["x"; "y"; "y"; "x"; "y"; "y"]
  ∧ Forall (λ line, ¬ is_loop_marker line) ["x"; "y"; "y"; "x"; "y"; "y"].
Proof.
  split; [reflexivity|].
  apply (compiled_sequence_has_no_marker
           ["loop1_2"; "x"; "loop2_2"; "y"; "loop2_end"; "loop1_end"]).
  reflexivity.
Defined.

(** * Properties of the step cursor *)

Section ControllerFacts.
Context {D : Type} {M : DeviceStateManager D}.
Implicit Types pc : ProcessController D.

Lemma updateDeviceStatuses_message command d :
  (updateDeviceStatuses command d).1 = "update device status success"
  ∨ (updateDeviceStatuses command d).1 = "update device status error".
Proof.
  unfold updateDeviceStatuses.
  destruct (updateDeviceStatus command d) as [[] d']; simpl; auto.
Qed.

Lemma moveToNextStep_redispatch pc :
  step_index_ pc = 0%nat → current_step_ pc ≠ "init" →
  moveToNextStep pc
  = Some (set_manager (dispatched (current_step_ pc) (devices_manager_ pc)) pc).
Proof.
  intros Hidx Hcmd. unfold moveToNextStep, dispatched.
  rewrite !bool_decide_eq_true_2 by done. simpl.
  by destruct (updateDeviceStatuses _ _).
Qed.

Lemma moveToNextStep_advance pc :
  advances pc →
  moveToNextStep pc
  = (step ← sequence_ pc !! step_index_ pc;
     Some (mk_controller step (S (step_index_ pc)) (sequence_ pc)
             (dispatched step (devices_manager_ pc)))).
Proof.
  intros Hadv. unfold moveToNextStep, dispatched.
  assert (bool_decide (step_index_ pc = 0%nat)
          && bool_decide (current_step_ pc ≠ "init") = false) as ->.
  { destruct Hadv as [Hidx | Hcmd].
    - by rewrite (bool_decide_eq_false_2 _ Hidx).
    - rewrite (bool_decide_eq_false_2 (current_step_ pc ≠ "init")) by auto.
      apply andb_false_r. }
  destruct (sequence_ pc !! step_index_ pc) as [step|]; simpl; [|done].
  by destruct (updateDeviceStatuses _ _).
Qed.

Lemma advances_dec pc :
  advances pc ∨ (step_index_ pc = 0%nat ∧ current_step_ pc ≠ "init").
Proof.
  unfold advances.
  destruct (decide (step_index_ pc = 0%nat)), (decide (current_step_ pc = "init")); auto.
Qed.

(** One call never moves the cursor back, never changes the sequence and
    never takes the cursor beyond the end of the sequence. *)
Lemma moveToNextStep_cursor pc pc' :
  moveToNextStep pc = Some pc' →
  sequence_ pc' = sequence_ pc
  ∧ (step_index_ pc ≤ step_index_ pc')%nat
  ∧ (step_index_ pc' ≤ length (sequence_ pc) ∨ step_index_ pc' = step_index_ pc)%nat.
Proof.
  destruct (advances_dec pc) as [Hadv | [Hidx Hcmd]].
  - rewrite moveToNextStep_advance by done.
    destruct (sequence_ pc !! step_index_ pc) as [step|] eqn:Hstep; [|done].
    intros [= <-]. simpl. apply lookup_lt_Some in Hstep. split; [done | lia].
  - rewrite moveToNextStep_redispatch by done.
    intros [= <-]. simpl. split; [done | lia].
Qed.

Lemma moveToNextStep_n_cursor n pc pc' :
  moveToNextStep_n n pc = Some pc' →
  sequence_ pc' = sequence_ pc
  ∧ (step_index_ pc ≤ step_index_ pc')%nat
  ∧ ((step_index_ pc ≤ length (sequence_ pc))%nat →
     (step_index_ pc' ≤ length (sequence_ pc))%nat).
Proof.
  revert pc. induction n as [|n IH]; intros pc; simpl.
  - intros [= <-]. auto.
  - destruct (moveToNextStep pc) as [pc1|] eqn:Hone; [|done]. simpl.
    intros Hrest. apply moveToNextStep_cursor in Hone as (Hseq & Hle & Hin).
    apply IH in Hrest as (Hseq' & Hle' & Hin').
    rewrite Hseq in *. repeat split; [congruence | lia |].
    intros Hstart. apply Hin'. lia.
Qed.

(** When a call is defined. *)
Lemma moveToNextStep_defined pc :
  is_Some (moveToNextStep pc)
  ↔ (step_index_ pc = 0%nat ∧ current_step_ pc ≠ "init")
    ∨ (step_index_ pc < length (sequence_ pc))%nat.
Proof.
  destruct (advances_dec pc) as [Hadv | [Hidx Hcmd]].
  - rewrite moveToNextStep_advance by done.
    rewrite <-lookup_lt_is_Some.
    destruct (sequence_ pc !! step_index_ pc) as [step|]; simpl.
    + split; eauto.
    + split; [by intros [? [=]]|]. intros [[Hidx Hcmd] | [? [=]]].
      destruct Hadv; done.
  - rewrite moveToNextStep_redispatch by done. split; eauto.
Qed.

Lemma initializeSequences_cursor file pc :
  step_index_ (initializeSequences file pc) = step_index_ pc
  ∧ current_step_ (initializeSequences file pc) = current_step_ pc.
Proof.
  unfold initializeSequences. destruct file as [lines|]; [|done].
  destruct (compileSequence _); simpl; repeat case_if; done.
Qed.
End ControllerFacts.

Section ControllerClaims.
Context {D : Type} {M : DeviceStateManager D}.
Implicit Types pc : ProcessController D.

Lemma last_snoc_finished (s : list string) : last (s ++ ["finished"]) = Some "finished".
Proof. apply last_snoc. Qed.

(** C1, as the code has it: on the load-failure branch [initializeSequences]
    returns right after building the local [raw], so the sequence of a
    controller under construction stays empty and the fallback is not
    installed; the list that is built and dropped does not even end with
    the sentinel, its last two literals being joined. *)
Theorem load_failure_leaves_sequence_empty (command : string) :
  sequence_ (initializeSequences None (initial_controller command)) = []
  ∧ ¬ fallback_installed (initializeSequences None (initial_controller command))
  ∧ last fallback_raw = Some "slider_init cobotta_init weighing_init plc_initfinished".
Proof.
  split; [reflexivity|]. split; [|reflexivity].
  intros (Hne & _). by apply Hne.
Qed.

(** C2, amended: in a state with [step_index_ = 0] and a current step
    other than "init", [moveToNextStep] dispatches the current step again
    and changes neither the cursor, nor the current step, nor the sequence;
    so the same holds for every number [n] of calls in a row, each of which
    dispatches the constructor's command once more, and the sequence is
    never consumed. *)
Theorem redispatch_repeats pc (n : nat) :
  step_index_ pc = 0%nat → current_step_ pc ≠ "init" →
  ∃ pc', moveToNextStep_n n pc = Some pc'
    ∧ step_index_ pc' = 0%nat
    ∧ current_step_ pc' = current_step_ pc
    ∧ sequence_ pc' = sequence_ pc
    ∧ devices_manager_ pc'
      = Nat.iter n (dispatched (current_step_ pc)) (devices_manager_ pc).
Proof.
  intros Hidx Hcmd. revert pc Hidx Hcmd.
  induction n as [|n IH]; intros pc Hidx Hcmd.
  - exists pc. by repeat split.
  - simpl moveToNextStep_n. rewrite moveToNextStep_redispatch by done. simpl.
    destruct (IH (set_manager (dispatched (current_step_ pc) (devices_manager_ pc)) pc))
      as (pc' & Hrun & Hidx' & Hcur' & Hseq' & Hdm'); [done..|].
    exists pc'. repeat split; [done..|].
    rewrite Hdm'. symmetry.
    apply (Nat.iter_succ_r n (dispatched (current_step_ pc)) (devices_manager_ pc)).
Qed.

(** C3, amended: from the state the constructor leaves, along every run
    of calls none of which indexes the sequence out of range, the cursor
    never goes back, never exceeds the length of the sequence, and the
    sequence stays the one installed at construction; a further call is
    defined exactly when it re-dispatches or the cursor is still below the
    length, the code having no guard of its own. *)
Theorem cursor_monotone_in_range command file pc0 (n m : nat) pc1 pc2 :
  new_ProcessController command file = Some pc0 →
  moveToNextStep_n n pc0 = Some pc1 →
  moveToNextStep_n m pc1 = Some pc2 →
  (step_index_ pc1 ≤ step_index_ pc2 ≤ length (sequence_ pc2))%nat
  ∧ sequence_ pc2 = sequence_ pc0
  ∧ (is_Some (moveToNextStep pc2)
     ↔ (step_index_ pc2 = 0%nat ∧ current_step_ pc2 ≠ "init")
       ∨ (step_index_ pc2 < length (sequence_ pc2))%nat).
Proof.
  intros Hnew Hn Hm. unfold new_ProcessController in Hnew.
  destruct (initializeSequences_cursor file (initial_controller command))
    as [Hidx _]. simpl in Hidx.
  apply moveToNextStep_cursor in Hnew as (Hseq0 & _ & Hin0).
  apply moveToNextStep_n_cursor in Hn as (Hseq1 & Hle1 & Hin1).
  apply moveToNextStep_n_cursor in Hm as (Hseq2 & Hle2 & Hin2).
  split; [|split; [congruence | apply moveToNextStep_defined]].
  split; [done|]. rewrite Hseq2. apply Hin2. rewrite Hseq1. apply Hin1.
  rewrite Hseq0. lia.
Qed.

(** C4: on the advance branch [moveToNextStep] indexes [sequence_] at
    [step_index_] with no guard, so the call is defined exactly when the
    cursor is below the length; it is out of range on an empty sequence,
    once [isSequenceCompleted] holds, and already inside the constructor
    when the file cannot be opened and the command is "init". *)
Theorem advance_reads_without_guard pc :
  advances pc →
  (moveToNextStep pc
   = (step ← sequence_ pc !! step_index_ pc;
      Some (mk_controller step (S (step_index_ pc)) (sequence_ pc)
              (dispatched step (devices_manager_ pc)))))
  ∧ (is_Some (moveToNextStep pc) ↔ (step_index_ pc < length (sequence_ pc))%nat)
  ∧ (sequence_ pc = [] → moveToNextStep pc = None)
  ∧ (isSequenceCompleted pc = true → moveToNextStep pc = None)
  ∧ new_ProcessController "init" None = None.
Proof.
  intros Hadv. split; [by apply moveToNextStep_advance|].
  assert (is_Some (moveToNextStep pc)
          ↔ (step_index_ pc < length (sequence_ pc))%nat) as Hdef.
  { rewrite moveToNextStep_defined. split; [|auto].
    intros [[Hidx Hcmd] | Hlt]; [|done]. destruct Hadv; done. }
  split; [done|]. split; [|split]; [| |reflexivity].
  - intros Hnil. apply eq_None_not_Some. rewrite Hdef, Hnil. simpl. lia.
  - intros Hdone%bool_decide_eq_true. apply eq_None_not_Some. rewrite Hdef. lia.
Qed.

(** C7: when the file opens, the installed sequence is not empty and ends
    with "finished": it is the compiled list, with the sentinel appended
    unless the list already ends with it, and it is the single "finished"
    when the compiler throws. *)
Theorem opened_file_sequence_ends_with_finished (lines : list string) pc :
  sequence_ (initializeSequences (Some lines) pc) ≠ []
  ∧ last (sequence_ (initializeSequences (Some lines) pc)) = Some "finished"
  ∧ sequence_ (initializeSequences (Some lines) pc)
    = match compileSequence (read_lines lines []) with
      | Return compiled =>
          if bool_decide (last compiled = Some "finished") then compiled
          else compiled ++ ["finished"]
      | Throw _ => ["finished"]
      end.
Proof.
  unfold initializeSequences.
  destruct (compileSequence (read_lines lines [])) as [compiled | e]; simpl.
  - destruct (decide (last compiled = Some "finished")) as [Hlast | Hlast].
    + rewrite (bool_decide_eq_true_2 _ Hlast).
      rewrite (bool_decide_eq_false_2 (last compiled ≠ _)) by auto.
      assert (compiled ≠ []) as Hne by (by intros ->).
      rewrite (bool_decide_eq_false_2 _ Hne). simpl. done.
    + rewrite (bool_decide_eq_false_2 _ Hlast).
      rewrite (bool_decide_eq_true_2 (last compiled ≠ _)) by auto.
      rewrite orb_true_r. simpl. rewrite last_snoc_finished.
      repeat split; [|done..]. by intros ?%app_eq_nil%proj2.
  - done.
Qed.

(** C9: on the advance branch, in range, the cursor moves on by one and
    the current step becomes the element read, whatever the device manager
    reports for the update: the reported flag [reported] only selects the
    text of the message, which [moveToNextStep] drops. *)
Theorem failed_update_does_not_block pc (step : string) (reported : bool) :
  advances pc →
  sequence_ pc !! step_index_ pc = Some step →
  (updateDeviceStatus step (devices_manager_ pc)).1 = reported →
  (updateDeviceStatuses step (devices_manager_ pc)).1
    = (if reported then "update device status success"
       else "update device status error")
  ∧ ∃ pc', moveToNextStep pc = Some pc'
      ∧ step_index_ pc' = S (step_index_ pc)
      ∧ current_step_ pc' = step
      ∧ sequence_ pc' = sequence_ pc.
Proof.
  intros Hadv Hstep Hreported. split.
  - unfold updateDeviceStatuses.
    destruct (updateDeviceStatus step (devices_manager_ pc)) as [b d'].
    simpl in *. by subst.
  - rewrite moveToNextStep_advance, Hstep by done. simpl. eauto.
Qed.
End ControllerClaims.

(** ** The loader and the constructor on concrete inputs *)

(** Blank lines and comments are dropped by the loader; the constructor
    called with "init" consumes the first compiled step. *)
Example construction_example :
  read_lines ["# demo"; ""; "loop1_2"; "slider_init"; "loop1_end"] []
    = ["loop1_2"; "slider_init"; "loop1_end"]
  ∧ (sequence_ <$> new_ProcessController (D := Journal.t) "init"
       (Some ["# demo"; ""; "loop1_2"; "slider_init"; "loop1_end"]))
    = Some ["slider_init"; "slider_init"; "finished"]
  ∧ (step_index_ <$> new_ProcessController (D := Journal.t) "init"
       (Some ["# demo"; ""; "loop1_2"; "slider_init"; "loop1_end"]))
    = Some 1%nat
  ∧ (sequence_ <$> new_ProcessController (D := Journal.t) "init"
       (Some ["loop1_2"; "slider_init"]))
    = Some ["finished"].
Proof. repeat split. Qed.

(** ** The cursor properties on a concrete run

    The controller is built with the command "start" or "init" over a file
    with the single line [slider_init], which compiles to
    [["slider_init"; "finished"]], and runs on the journal manager. *)

Lemma redispatch_repeats_witness :
  let pc : ProcessController Journal.t :=
    initializeSequences (Some ["slider_init"]) (initial_controller "start") in
  step_index_ pc = 0%nat ∧ current_step_ pc ≠ "init"
  ∧ ∃ pc', moveToNextStep_n 3 pc = Some pc'
      ∧ step_index_ pc' = 0%nat
      ∧ current_step_ pc' = current_step_ pc
      ∧ sequence_ pc' = sequence_ pc
      ∧ devices_manager_ pc'
        = Nat.iter 3 (dispatched (current_step_ pc)) (devices_manager_ pc).
Proof.
  intros pc. split; [reflexivity|]. split; [discriminate|].
  apply (redispatch_repeats pc 3); [reflexivity | discriminate].
Defined.

(** The call that follows the first re-dispatch does not take the first
    element of the sequence: it dispatches "start" again. *)
Lemma redispatch_is_not_once :
  ¬ redispatches_once (D := Journal.t)
      (initializeSequences (Some ["slider_init"]) (initial_controller "start")).
Proof.
  intros (pc1 & pc2 & step & Hfirst & _ & _ & Hsecond & _ & Hidx).
  vm_compute in Hfirst. injection Hfirst as <-.
  vm_compute in Hsecond. injection Hsecond as <-.
  discriminate Hidx.
Qed.

Lemma cursor_monotone_in_range_witness :
  ∃ pc0 pc1 pc2 : ProcessController Journal.t,
    new_ProcessController "init" (Some ["slider_init"]) = Some pc0
    ∧ moveToNextStep_n 0 pc0 = Some pc1
    ∧ moveToNextStep_n 1 pc1 = Some pc2
    ∧ (step_index_ pc1 ≤ step_index_ pc2 ≤ length (sequence_ pc2))%nat
    ∧ sequence_ pc2 = sequence_ pc0
    ∧ (is_Some (moveToNextStep pc2)
       ↔ (step_index_ pc2 = 0%nat ∧ current_step_ pc2 ≠ "init")
         ∨ (step_index_ pc2 < length (sequence_ pc2))%nat).
Proof.
  eexists _, _, _.
  split; [reflexivity|]. split; [reflexivity|]. split; [reflexivity|].
  apply (cursor_monotone_in_range (D := Journal.t)
           "init" (Some ["slider_init"]) _ 0%nat 1%nat _ _);
    reflexivity.
Defined.

(** With the command "init" the constructor consumes [slider_init], the
    next call consumes [finished], and the call after that indexes the
    two-element sequence at 2. *)
Lemma cursor_run_leaves_range :
  ¬ cursor_stays_in_range (D := Journal.t) "init" (Some ["slider_init"]) 2.
Proof.
  intros (pc0 & pc & Hnew & Hrun & _).
  vm_compute in Hnew. injection Hnew as <-.
  vm_compute in Hrun. discriminate Hrun.
Qed.

Lemma advance_reads_without_guard_witness :
  let pc : ProcessController Journal.t :=
    mk_controller "finished" 2 ["slider_init"; "finished"] (Journal.fresh true) in
  advances pc ∧ isSequenceCompleted pc = true ∧ moveToNextStep pc = None.
Proof.
  intros pc.
  assert (advances pc) as Hadv by (left; discriminate).
  split; [exact Hadv|]. split; [reflexivity|].
  destruct (advance_reads_without_guard pc Hadv) as (_ & _ & _ & Hdone & _).
  apply Hdone. reflexivity.
Defined.

(** The update fails ([healthy] is [false]) and the cursor moves on. *)
Lemma failed_update_does_not_block_witness :
  let pc : ProcessController Journal.t :=
    mk_controller "init" 0 ["slider_init"; "finished"] (Journal.fresh false) in
  advances pc
  ∧ sequence_ pc !! step_index_ pc = Some "slider_init"
  ∧ (updateDeviceStatuses "slider_init" (devices_manager_ pc)).1
    = "update device status error"
  ∧ ∃ pc', moveToNextStep pc = Some pc'
      ∧ step_index_ pc' = 1%nat
      ∧ current_step_ pc' = "slider_init"
      ∧ sequence_ pc' = sequence_ pc.
Proof.
  intros pc.
  assert (advances pc) as Hadv by (right; reflexivity).
  split; [exact Hadv|]. split; [reflexivity|].
  apply (failed_update_does_not_block pc "slider_init" false Hadv); reflexivity.
Defined.

(** * Further properties of the parsers *)

Lemma append_assoc (s1 s2 s3 : string) : (s1 +:+ s2) +:+ s3 = s1 +:+ (s2 +:+ s3).
Proof. induction s1 as [|c s1 IH]; [done|]. by rewrite !append_cons, IH. Qed.

Lemma all_spaces_app (s1 s2 : string) :
  all_spaces (s1 +:+ s2) = all_spaces s1 && all_spaces s2.
Proof.
  induction s1 as [|c s1 IH]; [done|].
  rewrite append_cons. simpl. by rewrite IH, andb_assoc.
Qed.

Lemma parseLoopStart_Some line id rep :
  parseLoopStart line = Return (Some (id, rep))
  ↔ ∃ m1 m2, loop_start_pattern line m1 m2
      ∧ decimal_value 0 m1 = id ∧ decimal_value 0 m2 = rep
      ∧ id ≤ INT_MAX ∧ rep ≤ INT_MAX.
Proof.
  unfold parseLoopStart. split.
  - destruct (match_loop_start line) as [[m1 m2]|] eqn:Hmatch; [|done].
    rewrite !stoi_cases. repeat case_bool_decide; simpl; try done.
    intros [= <- <-]. exists m1, m2.
    apply match_loop_start_spec in Hmatch. repeat split; [done|lia..].
  - intros (m1 & m2 & Hmatch%match_loop_start_spec & <- & <- & Hid & Hrep).
    rewrite Hmatch, !stoi_cases. by rewrite !bool_decide_eq_false_2 by lia.
Qed.

Lemma parseLoopEnd_Some line id :
  parseLoopEnd line = Return (Some id)
  ↔ ∃ m1, loop_end_pattern line m1 ∧ decimal_value 0 m1 = id ∧ id ≤ INT_MAX.
Proof.
  unfold parseLoopEnd. split.
  - destruct (match_loop_end line) as [m1|] eqn:Hmatch; [|done].
    rewrite stoi_cases. case_bool_decide; simpl; [done|].
    intros [= <-]. exists m1.
    apply match_loop_end_spec in Hmatch. repeat split; [done|lia].
  - intros (m1 & Hmatch%match_loop_end_spec & <- & Hid).
    rewrite Hmatch, stoi_cases. by rewrite bool_decide_eq_false_2 by lia.
Qed.

(** X1: [parseLoopStart] returns [true] with [(id, repeat)] exactly on the
    lines made of optional white space, [loop], a run of digits, [_], a run
    of digits and optional white space, both numbers at most [INT_MAX]; it
    returns [false] exactly on the lines not of that form, and throws exactly
    on the lines of that form with a number above [INT_MAX]. *)
Theorem parseLoopStart_accepts_exactly (line : string) :
  (∀ id rep,
     parseLoopStart line = Return (Some (id, rep))
     ↔ ∃ m1 m2, loop_start_pattern line m1 m2
         ∧ decimal_value 0 m1 = id ∧ decimal_value 0 m2 = rep
         ∧ 0 ≤ id ≤ INT_MAX ∧ 0 ≤ rep ≤ INT_MAX)
  ∧ (parseLoopStart line = Return None ↔ ¬ ∃ m1 m2, loop_start_pattern line m1 m2)
  ∧ (returns (parseLoopStart line) = false
     ↔ ∃ m1 m2, loop_start_pattern line m1 m2
         ∧ (INT_MAX < decimal_value 0 m1 ∨ INT_MAX < decimal_value 0 m2)).
Proof.
  split; [|split].
  - intros id rep. rewrite parseLoopStart_Some. split.
    + intros (m1 & m2 & Hmatch & <- & <- & Hid & Hrep). exists m1, m2.
      pose proof (decimal_value_nonneg 0 m1). pose proof (decimal_value_nonneg 0 m2).
      repeat split; [done|lia..].
    + intros (m1 & m2 & Hmatch & <- & <- & Hid & Hrep). exists m1, m2.
      repeat split; [done|lia..].
  - unfold parseLoopStart.
    destruct (match_loop_start line) as [[m1 m2]|] eqn:Hmatch.
    + split.
      * rewrite !stoi_cases. by repeat case_bool_decide.
      * intros []. exists m1, m2. by apply match_loop_start_spec.
    + split; [|done]. intros _ (m1 & m2 & Hpattern%match_loop_start_spec).
      congruence.
  - unfold parseLoopStart.
    destruct (match_loop_start line) as [[m1 m2]|] eqn:Hmatch.
    + rewrite !stoi_cases. apply match_loop_start_spec in Hmatch as Hpattern. split.
      * intros Hthrow. exists m1, m2. split; [done|].
        repeat case_bool_decide; simpl in *; (done || lia).
      * intros (m1' & m2' & Hmatch'%match_loop_start_spec & Hbig).
        assert (m1' = m1 ∧ m2' = m2) as [-> ->] by (split; congruence).
        repeat case_bool_decide; simpl; (done || lia).
    + split; [done|]. intros (m1 & m2 & Hpattern%match_loop_start_spec & _).
      congruence.
Qed.

(** X2: [parseLoopEnd] returns [true] with [id] exactly on the lines made
    of optional white space, [loop], a run of digits, [_end] and optional
    white space, the number at most [INT_MAX]; it returns [false] exactly on
    the lines not of that form, and throws exactly when the number is above
    [INT_MAX].  A line that [parseLoopEnd] accepts is never a loop start. *)
Theorem parseLoopEnd_accepts_exactly (line : string) :
  (∀ id,
     parseLoopEnd line = Return (Some id)
     ↔ ∃ m1, loop_end_pattern line m1
         ∧ decimal_value 0 m1 = id ∧ 0 ≤ id ≤ INT_MAX)
  ∧ (parseLoopEnd line = Return None ↔ ¬ ∃ m1, loop_end_pattern line m1)
  ∧ (returns (parseLoopEnd line) = false
     ↔ ∃ m1, loop_end_pattern line m1 ∧ INT_MAX < decimal_value 0 m1)
  ∧ ((∃ m1, loop_end_pattern line m1) → parseLoopStart line = Return None).
Proof.
  split; [|split; [|split]].
  - intros id. rewrite parseLoopEnd_Some. split.
    + intros (m1 & Hmatch & <- & Hid). exists m1.
      pose proof (decimal_value_nonneg 0 m1). repeat split; [done|lia..].
    + intros (m1 & Hmatch & <- & Hid). exists m1. repeat split; [done|lia].
  - unfold parseLoopEnd.
    destruct (match_loop_end line) as [m1|] eqn:Hmatch.
    + split.
      * rewrite stoi_cases. by case_bool_decide.
      * intros []. exists m1. by apply match_loop_end_spec.
    + split; [|done]. intros _ (m1 & Hpattern%match_loop_end_spec). congruence.
  - unfold parseLoopEnd.
    destruct (match_loop_end line) as [m1|] eqn:Hmatch.
    + rewrite stoi_cases. apply match_loop_end_spec in Hmatch as Hpattern. split.
      * intros Hthrow. exists m1. split; [done|].
        case_bool_decide; simpl in *; (done || lia).
      * intros (m1' & Hmatch'%match_loop_end_spec & Hbig).
        assert (m1' = m1) as -> by congruence.
        case_bool_decide; simpl; (done || lia).
    + split; [done|]. intros (m1 & Hpattern%match_loop_end_spec & _). congruence.
  - intros (m1 & Hpattern%match_loop_end_spec).
    unfold parseLoopStart. by rewrite (match_loop_end_not_start _ _ Hpattern).
Qed.

Lemma loop_start_pattern_padded line m1 m2 ws1 ws2 :
  all_spaces ws1 = true → all_spaces ws2 = true →
  loop_start_pattern line m1 m2 →
  loop_start_pattern (ws1 +:+ line +:+ ws2) m1 m2.
Proof.
  intros Hws1 Hws2 (a & b & -> & Ha & Hm1 & Hm2 & Hb).
  exists (ws1 +:+ a), (b +:+ ws2). rewrite !all_spaces_app, Hws1, Ha, Hb, Hws2.
  by rewrite !append_assoc.
Qed.

Lemma loop_end_pattern_padded line m1 ws1 ws2 :
  all_spaces ws1 = true → all_spaces ws2 = true →
  loop_end_pattern line m1 → loop_end_pattern (ws1 +:+ line +:+ ws2) m1.
Proof.
  intros Hws1 Hws2 (a & b & -> & Ha & Hm1 & Hb).
  exists (ws1 +:+ a), (b +:+ ws2). rewrite !all_spaces_app, Hws1, Ha, Hb, Hws2.
  by rewrite !append_assoc.
Qed.

(** X3: white space added before and after a marker does not change what
    the parsers read: the padded loop start gives the same [(id, repeat)] and
    the padded loop end the same [id]. *)
Theorem markers_ignore_surrounding_space (line ws1 ws2 : string) :
  all_spaces ws1 = true → all_spaces ws2 = true →
  (∀ id rep, parseLoopStart line = Return (Some (id, rep)) →
     parseLoopStart (ws1 +:+ line +:+ ws2) = Return (Some (id, rep)))
  ∧ (∀ id, parseLoopEnd line = Return (Some id) →
       parseLoopEnd (ws1 +:+ line +:+ ws2) = Return (Some id)).
Proof.
  intros Hws1 Hws2. split.
  - intros id rep. rewrite !parseLoopStart_Some.
    intros (m1 & m2 & Hpattern & Hrest). exists m1, m2.
    split; [by apply loop_start_pattern_padded | done].
  - intros id. rewrite !parseLoopEnd_Some.
    intros (m1 & Hpattern & Hrest). exists m1.
    split; [by apply loop_end_pattern_padded | done].
Qed.

Lemma markers_ignore_surrounding_space_witness :
  all_spaces "  " = true ∧ all_spaces "   " = true
  ∧ parseLoopStart "loop1_3" = Return (Some (1, 3))
  ∧ parseLoopStart ("  " +:+ "loop1_3" +:+ "   ") = Return (Some (1, 3)).
Proof.
  split; [reflexivity|]. split; [reflexivity|]. split; [reflexivity|].
  apply (markers_ignore_surrounding_space "loop1_3" "  " "   ");
    reflexivity.
Defined.

(** * Further properties of the compiler *)

Lemma classify_loop_start line id rep :
  parseLoopStart line = Return (Some (id, rep)) →
  classify line = loop_start id rep ∧ number_out_of_range line = false.
Proof.
  intros Hstart. pose proof (parse_view line) as Hview.
  destruct (classify line) as [id' rep' | id' |];
    [|destruct Hview as [Hnone _]; congruence..].
  destruct Hview as [_ Hstart']. rewrite Hstart in Hstart'.
  destruct (number_out_of_range line); [done|]. by injection Hstart' as <- <-.
Qed.

Lemma classify_loop_end line id :
  parseLoopEnd line = Return (Some id) →
  classify line = loop_end id ∧ number_out_of_range line = false.
Proof.
  intros Hend. pose proof (parse_view line) as Hview.
  destruct (classify line) as [id' rep' | id' |].
  - destruct Hview as [_ Hstart]. unfold parseLoopEnd in Hend.
    destruct (match_loop_end line) as [m1|] eqn:Hm; [|done].
    apply match_loop_end_not_start in Hm.
    unfold parseLoopStart in Hstart. rewrite Hm in Hstart.
    by destruct (number_out_of_range line).
  - destruct Hview as [_ Hend']. rewrite Hend in Hend'.
    destruct (number_out_of_range line); [done|]. by injection Hend' as <-.
  - destruct Hview as [_ Hnone]. congruence.
Qed.

Lemma elem_of_repeated (line : string) n block :
  line ∈ repeated n block → line ∈ block.
Proof.
  unfold repeated. induction n as [|n IH]; simpl.
  - by intros ?%elem_of_nil.
  - intros [?|?]%elem_of_app; auto.
Qed.

Lemma expands_to_elem raw lines (line : string) :
  expands_to raw lines → line ∈ lines → line ∈ raw ∧ plain line.
Proof.
  induction 1 as [| l Hl | raw1 raw2 lines1 lines2 _ IH1 _ IH2
                  | l_start l_end id n body lines Hstart Hn Hend _ IH].
  - by intros ?%elem_of_nil.
  - intros ->%list_elem_of_singleton. split; [apply list_elem_of_singleton|]; done.
  - intros [Hin|Hin]%elem_of_app.
    + destruct (IH1 Hin). split; [apply elem_of_app|]; auto.
    + destruct (IH2 Hin). split; [apply elem_of_app|]; auto.
  - intros Hin%elem_of_repeated. destruct (IH Hin) as [Hbody Hplain].
    split; [|done]. apply elem_of_cons. right. apply elem_of_app. auto.
Qed.

Lemma compile_lines_Throw_app raw more st e :
  compile_lines raw st = Throw e → compile_lines (raw ++ more) st = Throw e.
Proof. intros Hthrow. by rewrite compile_lines_app, Hthrow. Qed.

(** The frames of a state the compiler reaches were opened by loop starts
    of the lines read. *)
Lemma open_run_frames raw st :
  open_run raw st →
  Forall (λ frame, ∃ l_start,
            l_start ∈ raw
            ∧ parseLoopStart l_start
              = Return (Some (LoopFrame.id frame, LoopFrame.repeat frame))
            ∧ 1 ≤ LoopFrame.repeat frame)
    (stack st).
Proof.
  induction 1 as [raw lines _ | raw o stk l_start id n body lines _ IH Hstart Hn _];
    simpl; [constructor|].
  constructor.
  - exists l_start. simpl. split; [|done].
    apply elem_of_app. right. apply elem_of_cons. by left.
  - simpl in IH. eapply Forall_impl; [exact IH|].
    intros frame (l & Hl & Hrest). exists l. split; [|done].
    apply elem_of_app. by left.
Qed.

Lemma compile_lines_open_run raw st :
  compile_lines raw (mk_state [] []) = Return st → open_run raw st.
Proof.
  intros Hrun. apply (open_run_compile_lines [] raw) in Hrun; [done|].
  apply run_top, expands_nil.
Qed.

(** The lines already in [out] play no part in what follows. *)
Lemma compile_line_out_prefix o line st :
  compile_line line (mk_state (o ++ out st) (stack st))
  = (st' ← compile_line line st; Return (mk_state (o ++ out st') (stack st'))).
Proof.
  rewrite !compile_line_view.
  destruct (number_out_of_range line); [done|].
  destruct (classify line) as [id rep | id |]; simpl.
  - by case_bool_decide.
  - destruct (stack st) as [|frame [|top below]]; [done|..];
      case_bool_decide; simpl; [done| |done|done].
    unfold emit. simpl. by rewrite app_assoc.
  - unfold emit. simpl. destruct (stack st); simpl; [|done]. by rewrite app_assoc.
Qed.

Lemma compile_lines_out_prefix o raw st :
  compile_lines raw (mk_state (o ++ out st) (stack st))
  = (st' ← compile_lines raw st; Return (mk_state (o ++ out st') (stack st'))).
Proof.
  revert st. induction raw as [|line raw IH]; intros st; simpl; [done|].
  rewrite compile_line_out_prefix.
  destruct (compile_line line st) as [st1|e]; simpl; [|done]. apply IH.
Qed.

(** X4: [compileSequence] returns a list exactly on the well-formed
    inputs, those built from plain instructions by concatenation and by
    wrapping a well-formed body in a loop start with [repeat >= 1] and the
    loop end of the same id; the list returned is the expansion of the input,
    each loop standing for its body repeated.  On every other input it
    throws. *)
Theorem compileSequence_accepts_exactly_well_formed (raw : list string) :
  (∀ lines, compileSequence raw = Return lines ↔ expands_to raw lines)
  ∧ (returns (compileSequence raw) = false ↔ ¬ ∃ lines, expands_to raw lines).
Proof.
  split; [intros lines; apply compileSequence_Return_iff|].
  destruct (compileSequence raw) as [lines|e] eqn:Hcompiled; simpl.
  - split; [done|]. intros []. exists lines. by apply compileSequence_Return_iff.
  - split; [|done]. intros _ (lines & Hlines%compileSequence_Return_iff).
    congruence.
Qed.

(** X5: an input without loop markers compiles to itself, line for line;
    plain instructions are kept as they are, white space included. *)
Theorem loop_free_input_compiles_to_itself (raw : list string) :
  Forall plain raw → compileSequence raw = Return raw.
Proof.
  intros Hplain. unfold compileSequence.
  by rewrite compile_lines_plain.
Qed.

Lemma loop_free_input_compiles_to_itself_witness :
  Forall plain ["slider_init plc_init"; "  weighing_open "; "finished"]
  ∧ compileSequence ["slider_init plc_init"; "  weighing_open "; "finished"]
    = Return ["slider_init plc_init"; "  weighing_open "; "finished"].
Proof.
  assert (Forall plain ["slider_init plc_init"; "  weighing_open "; "finished"])
    as Hplain by (repeat constructor).
  split; [exact Hplain|].
  apply (loop_free_input_compiles_to_itself _ Hplain).
Defined.

(** X6: a prefix of the input that compiles on its own can be compiled
    apart: the whole input then compiles to the prefix's list followed by the
    list of the rest, and throws what the rest alone throws. *)
Theorem compiled_prefix_splits_off (raw1 raw2 lines1 : list string) :
  compileSequence raw1 = Return lines1 →
  compileSequence (raw1 ++ raw2)
  = (lines2 ← compileSequence raw2; Return (lines1 ++ lines2)).
Proof.
  unfold compileSequence. intros Hfirst.
  destruct (compile_lines raw1 (mk_state [] [])) as [[o stk]|e] eqn:Hrun1; [|done].
  simpl in Hfirst. destruct stk; [|done]. injection Hfirst as ->.
  rewrite compile_lines_app, Hrun1. simpl.
  pose proof (compile_lines_out_prefix lines1 raw2 (mk_state [] [])) as Hprefix.
  simpl in Hprefix. rewrite app_nil_r in Hprefix. rewrite Hprefix.
  destruct (compile_lines raw2 (mk_state [] [])) as [[o2 stk2]|e]; simpl; [|done].
  by destruct stk2.
Qed.

Lemma compiled_prefix_splits_off_witness :
  compileSequence ["loop1_2"; "a"; "loop1_end"] = Return ["a"; "a"]
  ∧ compileSequence (["loop1_2"; "a"; "loop1_end"] ++ ["b"; "loop2_end"])
    = (lines2 ← compileSequence ["b"; "loop2_end"]; Return (["a"; "a"] ++ lines2)).
Proof.
  split; [reflexivity|].
  apply (compiled_prefix_splits_off ["loop1_2"; "a"; "loop1_end"]). reflexivity.
Defined.

(** X7: the compiler invents no line: every line of a compiled sequence
    is a plain instruction that occurs in the input. *)
Theorem compiled_lines_come_from_input (raw compiled : list string) (line : string) :
  compileSequence raw = Return compiled →
  line ∈ compiled → line ∈ raw ∧ plain line.
Proof.
  intros Hcompiled%compileSequence_Return_iff. by apply expands_to_elem.
Qed.

Lemma compiled_lines_come_from_input_witness :
  compileSequence ["loop1_2"; "a"; "loop1_end"; "b"] = Return ["a"; "a"; "b"]
  ∧ "a" ∈ ["a"; "a"; "b"]
  ∧ "a" ∈ ["loop1_2"; "a"; "loop1_end"; "b"] ∧ plain "a".
Proof.
  assert ("a" ∈ ["a"; "a"; "b"]) as Hin by (apply elem_of_cons; by left).
  split; [reflexivity|]. split; [exact Hin|].
  apply (compiled_lines_come_from_input
           ["loop1_2"; "a"; "loop1_end"; "b"] ["a"; "a"; "b"] "a");
    [reflexivity | exact Hin].
Defined.

(** X8: an exception thrown while the lines are read is final: whatever
    lines follow, the compiler throws the same exception.  Only the
    unclosed-loop exception, thrown after the last line, can be cured by
    appending lines. *)
Theorem compile_error_is_final (raw more : list string) (e : exception) :
  compileSequence raw = Throw e →
  (∀ id, e ≠ unclosed_loop id) →
  compileSequence (raw ++ more) = Throw e.
Proof.
  unfold compileSequence. intros Hthrow Hkind.
  destruct (compile_lines raw (mk_state [] [])) as [st|e'] eqn:Hrun.
  - simpl in Hthrow. destruct (stack st) as [|frame stk]; [done|].
    injection Hthrow as <-. by destruct (Hkind (LoopFrame.id frame)).
  - simpl in Hthrow. injection Hthrow as ->.
    by rewrite (compile_lines_Throw_app _ _ _ _ Hrun).
Qed.

Lemma compile_error_is_final_witness :
  compileSequence ["a"; "loop1_end"] = Throw (loop_end_without_start "loop1_end")
  ∧ (∀ id, loop_end_without_start "loop1_end" ≠ unclosed_loop id)
  ∧ compileSequence (["a"; "loop1_end"] ++ ["loop1_2"; "b"; "loop1_end"])
    = Throw (loop_end_without_start "loop1_end").
Proof.
  assert (∀ id, loop_end_without_start "loop1_end" ≠ unclosed_loop id) as Hkind
    by (intros id; discriminate).
  split; [reflexivity|]. split; [exact Hkind|].
  apply (compile_error_is_final ["a"; "loop1_end"]); [reflexivity | exact Hkind].
Defined.

Lemma compile_lines_invalid_repeat raw st line :
  compile_lines raw st = Throw (repeat_must_be_positive line) →
  line ∈ raw ∧ ∃ id, parseLoopStart line = Return (Some (id, 0)).
Proof.
  revert st. induction raw as [|l raw IH]; intros st; simpl; [done|].
  destruct (compile_line l st) as [st1|e] eqn:Hline; simpl.
  - intros [Hin Hzero]%IH. split; [|done]. apply elem_of_cons. by right.
  - intros [= ->]. rewrite compile_line_view in Hline.
    pose proof (parse_view l) as Hview.
    destruct (number_out_of_range l); [done|].
    destruct (classify l) as [id rep | id |]; [| |done].
    + destruct Hview as [Hrep Hstart]. case_bool_decide; [|done].
      injection Hline as <-. split; [apply elem_of_cons; by left|].
      exists id. by replace 0 with rep by lia.
    + destruct (stack st) as [|frame stk]; [done|]. by case_bool_decide.
Qed.

(** X9: the repeat-must-be-positive exception names a line of the input,
    and that line is a loop start whose repeat count reads as 0: a count
    cannot be negative, a sign making the line a plain instruction. *)
Theorem invalid_repeat_is_zero (raw : list string) (line : string) :
  compileSequence raw = Throw (repeat_must_be_positive line) →
  line ∈ raw ∧ ∃ id, parseLoopStart line = Return (Some (id, 0)).
Proof.
  unfold compileSequence.
  destruct (compile_lines raw (mk_state [] [])) as [st|e] eqn:Hrun; simpl.
  - by destruct (stack st).
  - intros [= ->]. by apply (compile_lines_invalid_repeat _ _ _ Hrun).
Qed.

Lemma invalid_repeat_is_zero_witness :
  compileSequence ["a"; "loop3_00"; "b"; "loop3_end"]
    = Throw (repeat_must_be_positive "loop3_00")
  ∧ "loop3_00" ∈ ["a"; "loop3_00"; "b"; "loop3_end"]
  ∧ ∃ id, parseLoopStart "loop3_00" = Return (Some (id, 0)).
Proof.
  split; [reflexivity|].
  apply (invalid_repeat_is_zero ["a"; "loop3_00"; "b"; "loop3_end"]). reflexivity.
Defined.

(** The loop end written for the id of an open frame closes that frame. *)
Lemma open_frame_end_accepted raw st frame below :
  open_run raw st → stack st = frame :: below →
  (∃ l_start, l_start ∈ raw
     ∧ parseLoopStart l_start
       = Return (Some (LoopFrame.id frame, LoopFrame.repeat frame)))
  ∧ compile_line (loop_end_line (LoopFrame.id frame)) st
    = Return (emit (expand frame) (mk_state (out st) below)).
Proof.
  intros Hrun Hstack. apply open_run_frames in Hrun. rewrite Hstack in Hrun.
  apply Forall_cons in Hrun as [(l_start & Hin & Hstart & _) _].
  split; [by exists l_start|].
  assert (0 ≤ LoopFrame.id frame ≤ INT_MAX) as Hid.
  { apply parseLoopStart_Some in Hstart as (m1 & m2 & _ & <- & _ & Hmax & _).
    pose proof (decimal_value_nonneg 0 m1). lia. }
  apply parseLoopEnd_line, classify_loop_end in Hid as [Hkind Hfit].
  rewrite compile_line_view, Hfit, Hkind, Hstack.
  by rewrite bool_decide_eq_false_2 by auto.
Qed.

(** X10: when a loop end is rejected for its id, the text of the
    exception names the loop end of the innermost open loop, that loop was
    opened by a loop start of the lines read so far, and the named loop end,
    put in place of the rejected line, is accepted. *)
Theorem mismatch_names_accepted_end
    (read : list string) (st : compile_state) (line : string) (expected : Z) :
  compile_lines read (mk_state [] []) = Return st →
  compile_line line st = Throw (loop_id_mismatch expected line) →
  what (loop_id_mismatch expected line)
    = "loop id mismatch: expected " +:+ loop_end_line expected +:+ ", got " +:+ line
  ∧ (∃ l_start n, l_start ∈ read
       ∧ parseLoopStart l_start = Return (Some (expected, n)))
  ∧ returns (compile_line (loop_end_line expected) st) = true.
Proof.
  intros Hread%compile_lines_open_run Hthrow.
  split.
  { unfold what, loop_end_line. by rewrite !append_assoc. }
  rewrite compile_line_view in Hthrow.
  destruct (number_out_of_range line); [done|].
  destruct (classify line) as [id rep | id |]; [by case_bool_decide| |done].
  destruct (stack st) as [|frame below] eqn:Hstack; [done|].
  case_bool_decide; [|done]. injection Hthrow as <-.
  destruct (open_frame_end_accepted _ _ _ _ Hread Hstack)
    as [(l_start & Hin & Hstart) Haccepted].
  split; [by exists l_start, (LoopFrame.repeat frame)|].
  by rewrite Haccepted.
Qed.

Lemma mismatch_names_accepted_end_witness :
  compile_lines ["loop7_3"; "a"] (mk_state [] [])
    = Return (mk_state [] [LoopFrame.mk 7 3 ["a"]])
  ∧ compile_line "loop8_end" (mk_state [] [LoopFrame.mk 7 3 ["a"]])
    = Throw (loop_id_mismatch 7 "loop8_end")
  ∧ what (loop_id_mismatch 7 "loop8_end")
    = "loop id mismatch: expected loop7_end, got loop8_end"
  ∧ returns (compile_line (loop_end_line 7) (mk_state [] [LoopFrame.mk 7 3 ["a"]]))
    = true.
Proof.
  split; [reflexivity|]. split; [reflexivity|].
  destruct (mismatch_names_accepted_end ["loop7_3"; "a"]
              (mk_state [] [LoopFrame.mk 7 3 ["a"]]) "loop8_end" 7)
    as (Hwhat & _ & Haccepted); [reflexivity..|].
  split; [exact Hwhat | exact Haccepted].
Defined.

(** The unclosed-loop exception is thrown after the loop over the lines,
    never inside it. *)
Lemma compile_lines_not_unclosed raw st id :
  compile_lines raw st ≠ Throw (unclosed_loop id).
Proof.
  revert st. induction raw as [|line raw IH]; intros st; simpl; [done|].
  destruct (compile_line line st) as [st1|e] eqn:Hline; simpl; [apply IH|].
  intros [= ->]. rewrite compile_line_view in Hline.
  destruct (number_out_of_range line); [done|].
  destruct (classify line) as [id' rep | id' |]; [by case_bool_decide| |done].
  destruct (stack st) as [|frame stk]; [done|]. by case_bool_decide.
Qed.

(** X11: the unclosed-loop exception reports the innermost loop still
    open at the end of the input: a loop start of the input opened it, and
    with its loop end appended the compiler either returns or reports the
    next loop still open, never another error. *)
Theorem unclosed_loop_reports_innermost (raw : list string) (id : Z) :
  compileSequence raw = Throw (unclosed_loop id) →
  (∃ l_start n, l_start ∈ raw ∧ parseLoopStart l_start = Return (Some (id, n)))
  ∧ match compileSequence (raw ++ [loop_end_line id]) with
    | Return _ => True
    | Throw e => ∃ id', e = unclosed_loop id'
    end.
Proof.
  unfold compileSequence.
  destruct (compile_lines raw (mk_state [] [])) as [st|e] eqn:Hrun; simpl.
  2:{ intros [= ->]. by destruct (compile_lines_not_unclosed _ _ _ Hrun). }
  destruct (stack st) as [|frame below] eqn:Hstack; [done|]. intros [= <-].
  destruct (open_frame_end_accepted _ _ _ _ (compile_lines_open_run _ _ Hrun) Hstack)
    as [(l_start & Hin & Hstart) Haccepted].
  split; [by exists l_start, (LoopFrame.repeat frame)|].
  rewrite compile_lines_app, Hrun. simpl. rewrite Haccepted. simpl.
  destruct (stack (emit (expand frame) (mk_state (out st) below)))
    as [|frame' stk']; [done|].
  by exists (LoopFrame.id frame').
Qed.

Lemma unclosed_loop_reports_innermost_witness :
  compileSequence ["loop1_2"; "a"; "loop2_3"; "b"] = Throw (unclosed_loop 2)
  ∧ compileSequence (["loop1_2"; "a"; "loop2_3"; "b"] ++ [loop_end_line 2])
    = Throw (unclosed_loop 1)
  ∧ match compileSequence (["loop1_2"; "a"; "loop2_3"; "b"] ++ [loop_end_line 2]) with
    | Return _ => True
    | Throw e => ∃ id', e = unclosed_loop id'
    end.
Proof.
  split; [reflexivity|]. split; [reflexivity|].
  apply (unclosed_loop_reports_innermost ["loop1_2"; "a"; "loop2_3"; "b"] 2).
  reflexivity.
Defined.

(** * Further properties of the loader and of the step cursor *)

Lemma read_lines_filter lines raw : read_lines lines raw = raw ++ filter kept lines.
Proof.
  revert raw. induction lines as [|line lines IH]; intros raw; simpl.
  - by rewrite app_nil_r.
  - destruct (is_blank_or_comment line) eqn:Hline.
    + rewrite filter_cons_False; [apply IH|]. unfold kept. congruence.
    + rewrite filter_cons_True by done. rewrite IH. by rewrite <-app_assoc.
Qed.

Lemma kept_spec line :
  kept line ↔ line ≠ "" ∧ ∀ rest, line ≠ String "#" rest.
Proof.
  unfold kept. destruct line as [|c rest]; simpl.
  - split; [done|]. by intros [[] _].
  - rewrite bool_decide_eq_false. split.
    + intros Hc. split; [done|]. intros rest' [= -> _]. done.
    + intros [_ Hrest] ->. by apply (Hrest rest).
Qed.

(** X12: the loader passes on to the compiler the lines of the file that
    are not empty and do not start with [#], all of them, in the order of the
    file, and no other line. *)
Theorem loader_keeps_instruction_lines (lines : list string) :
  read_lines lines [] = filter kept lines
  ∧ read_lines lines [] `sublist_of` lines
  ∧ ∀ line, line ∈ read_lines lines []
      ↔ line ∈ lines ∧ line ≠ "" ∧ ∀ rest, line ≠ String "#" rest.
Proof.
  rewrite read_lines_filter. simpl.
  split; [done|]. split; [apply sublist_filter|].
  intros line. rewrite list_elem_of_filter, kept_spec. tauto.
Qed.

(** X13: a comment line or an empty line, wherever it stands in the file,
    has no effect on the controller that [initializeSequences] leaves. *)
Theorem comments_do_not_change_the_sequence
    {D : Type} (lines1 lines2 : list string) (comment : string)
    (pc : ProcessController D) :
  is_blank_or_comment comment = true →
  initializeSequences (Some (lines1 ++ comment :: lines2)) pc
  = initializeSequences (Some (lines1 ++ lines2)) pc.
Proof.
  intros Hcomment. unfold initializeSequences.
  rewrite !read_lines_filter, !filter_app.
  rewrite (filter_cons_False _ comment); [done|]. unfold kept. congruence.
Qed.

Lemma comments_do_not_change_the_sequence_witness :
  is_blank_or_comment "# repeat the weighing" = true
  ∧ initializeSequences
      (Some (["loop1_2"] ++ "# repeat the weighing" :: ["weighing_open"; "loop1_end"]))
      (initial_controller (D := Journal.t) "init")
    = initializeSequences (Some (["loop1_2"] ++ ["weighing_open"; "loop1_end"]))
        (initial_controller (D := Journal.t) "init").
Proof.
  split; [reflexivity|].
  apply (comments_do_not_change_the_sequence ["loop1_2"]
           ["weighing_open"; "loop1_end"] "# repeat the weighing").
  reflexivity.
Defined.

Section RunFacts.
Context {D : Type} {M : DeviceStateManager D}.
Implicit Types pc : ProcessController D.

(** What [initializeSequences] installs when the file opens. *)
Lemma initializeSequences_opened lines pc :
  sequence_ (initializeSequences (Some lines) pc)
  = match compileSequence (read_lines lines []) with
    | Return compiled =>
        if bool_decide (last compiled = Some "finished") then compiled
        else compiled ++ ["finished"]
    | Throw _ => ["finished"]
    end.
Proof.
  unfold initializeSequences.
  destruct (compileSequence (read_lines lines [])) as [compiled | e]; simpl; [|done].
  destruct (decide (last compiled = Some "finished")) as [Hlast | Hlast].
  - rewrite (bool_decide_eq_true_2 _ Hlast).
    rewrite (bool_decide_eq_false_2 (last compiled ≠ _)) by auto.
    assert (compiled ≠ []) as Hne by (by intros ->).
    by rewrite (bool_decide_eq_false_2 _ Hne).
  - rewrite (bool_decide_eq_false_2 _ Hlast).
    rewrite (bool_decide_eq_true_2 (last compiled ≠ _)) by auto.
    by rewrite orb_true_r.
Qed.

Lemma installed_sequence_eq lines pc :
  sequence_ (initializeSequences (Some lines) pc) = installed_sequence lines.
Proof. unfold installed_sequence. by rewrite !initializeSequences_opened. Qed.

Lemma installed_sequence_last lines :
  last (installed_sequence lines) = Some "finished".
Proof.
  unfold installed_sequence. rewrite initializeSequences_opened.
  destruct (compileSequence _) as [compiled|e]; [|done].
  case_bool_decide; [done|]. apply last_snoc.
Qed.

Lemma installed_sequence_length lines : (0 < length (installed_sequence lines))%nat.
Proof.
  pose proof (installed_sequence_last lines) as Hlast.
  destruct (installed_sequence lines); [done|]. simpl. lia.
Qed.

(** X14: every step of the sequence installed from an opened file is
    either the sentinel "finished" or a line of the file that the loader
    kept, and none is a loop marker: the controller never dispatches a
    marker, a comment or an empty line. *)
Theorem installed_steps_are_file_instructions (lines : list string) pc :
  Forall (λ step, ¬ is_loop_marker step ∧ (step = "finished" ∨ (step ∈ lines ∧ kept step)))
    (sequence_ (initializeSequences (Some lines) pc)).
Proof.
  assert (¬ is_loop_marker "finished") as Hfinished.
  { rewrite <-classify_marker. by intros []. }
  rewrite initializeSequences_opened.
  destruct (compileSequence (read_lines lines [])) as [compiled|e] eqn:Hcompiled.
  - assert (Forall (λ step, ¬ is_loop_marker step
                      ∧ (step = "finished" ∨ (step ∈ lines ∧ kept step))) compiled)
      as Hsteps.
    { apply Forall_forall. intros step Hstep.
      apply compileSequence_Return_iff in Hcompiled as Hexpands.
      destruct (expands_to_elem _ _ _ Hexpands Hstep) as [Hin Hplain].
      split.
      - rewrite <-classify_marker. apply plain_classify in Hplain. by rewrite Hplain; intros [].
      - right. rewrite read_lines_filter in Hin. simpl in Hin.
        apply list_elem_of_filter in Hin. tauto. }
    case_bool_decide; [done|]. apply Forall_app. split; [done|].
    repeat constructor; auto.
  - repeat constructor; auto.
Qed.

(** One more step on the advance branch. *)
Lemma moveToNextStep_n_advance n pc :
  advances pc →
  (step_index_ pc + n ≤ length (sequence_ pc))%nat →
  ∃ pc', moveToNextStep_n n pc = Some pc'
    ∧ step_index_ pc' = (step_index_ pc + n)%nat
    ∧ sequence_ pc' = sequence_ pc
    ∧ devices_manager_ pc'
      = dispatched_all (take n (drop (step_index_ pc) (sequence_ pc))) (devices_manager_ pc)
    ∧ ((0 < n)%nat →
       Some (current_step_ pc') = sequence_ pc !! (step_index_ pc + n - 1)%nat).
Proof.
  revert pc. induction n as [|n IH]; intros pc Hadv Hrange.
  - exists pc. simpl. rewrite Nat.add_0_r. repeat split; try done; lia.
  - simpl moveToNextStep_n. rewrite moveToNextStep_advance by done.
    destruct (sequence_ pc !! step_index_ pc) as [step|] eqn:Hstep.
    2:{ apply lookup_ge_None in Hstep. lia. }
    simpl.
    destruct (IH (mk_controller step (S (step_index_ pc)) (sequence_ pc)
                    (dispatched step (devices_manager_ pc))))
      as (pc' & Hrun & Hidx & Hseq & Hdm & Hcur).
    { left. simpl. lia. }
    { simpl. lia. }
    simpl in *. exists pc'. split; [done|]. split; [lia|]. split; [done|]. split.
    + by rewrite Hdm, (drop_S _ _ _ Hstep).
    + intros _. destruct n as [|n].
      * simpl in Hrun. injection Hrun as <-. simpl.
        by replace (step_index_ pc + 1 - 1)%nat with (step_index_ pc) by lia.
      * rewrite Hcur by lia. f_equal. lia.
Qed.
End RunFacts.

Section RunProperties.
Context {D : Type} {M : DeviceStateManager D}.
Implicit Types pc : ProcessController D.

(** X15: over a file that opens, the constructor never indexes the
    sequence out of range, whatever the command: it installs the sequence,
    dispatches one command to the freshly registered manager, and leaves the
    cursor at 1 with the first step as current step when the command is
    "init", at 0 with the command as current step otherwise. *)
Theorem construction_over_opened_file (command : string) (lines : list string) :
  ∃ pc0, new_ProcessController command (Some lines) = Some pc0
    ∧ sequence_ pc0 = installed_sequence lines
    ∧ devices_manager_ pc0 = dispatched (current_step_ pc0) registered_manager
    ∧ (if bool_decide (command = "init")
       then step_index_ pc0 = 1%nat
            ∧ head (installed_sequence lines) = Some (current_step_ pc0)
       else step_index_ pc0 = 0%nat ∧ current_step_ pc0 = command).
Proof.
  unfold new_ProcessController.
  set (start := initializeSequences (Some lines) (initial_controller command)).
  assert (step_index_ start = 0%nat) as Hidx.
  { by destruct (initializeSequences_cursor (Some lines) (initial_controller command)). }
  assert (current_step_ start = command) as Hcur.
  { by destruct (initializeSequences_cursor (Some lines) (initial_controller command)). }
  pose proof (installed_sequence_eq lines (initial_controller command)) as Hseq.
  fold start in Hseq.
  assert (devices_manager_ start = registered_manager) as Hdm.
  { unfold start, initializeSequences.
    destruct (compileSequence _); simpl; by repeat case_if. }
  case_bool_decide as Hcommand.
  - rewrite moveToNextStep_advance by (right; congruence).
    rewrite Hidx, Hseq, Hdm.
    pose proof (installed_sequence_length lines) as Hlen.
    rewrite head_lookup.
    destruct (installed_sequence lines !! 0%nat) as [step|] eqn:Hstep.
    + simpl. eexists. split; [done|]. by simpl.
    + apply lookup_ge_None in Hstep. lia.
  - rewrite moveToNextStep_redispatch by congruence.
    eexists. split; [done|]. simpl. by rewrite Hseq, Hdm, Hcur.
Qed.

(** X16: after every call of [moveToNextStep], [getCurrentStep] is the
    command that the call sent to the device manager, on either branch; the
    call sends exactly one command and leaves the sequence as it was. *)
Theorem current_step_is_last_dispatched pc pc' :
  moveToNextStep pc = Some pc' →
  devices_manager_ pc' = dispatched (getCurrentStep pc') (devices_manager_ pc)
  ∧ sequence_ pc' = sequence_ pc.
Proof.
  destruct (advances_dec pc) as [Hadv | [Hidx Hcmd]].
  - rewrite moveToNextStep_advance by done.
    destruct (sequence_ pc !! step_index_ pc) as [step|]; [|done].
    by intros [= <-].
  - rewrite moveToNextStep_redispatch by done. by intros [= <-].
Qed.

(** X17: from a state on the advance branch, [n] calls that stay within
    the sequence dispatch the [n] steps from the cursor on, in the order of
    the sequence and each once, move the cursor on by [n], and leave the last
    of these steps as current step. *)
Theorem steps_dispatched_in_order pc (n : nat) :
  advances pc →
  (step_index_ pc + n ≤ length (sequence_ pc))%nat →
  ∃ pc', moveToNextStep_n n pc = Some pc'
    ∧ step_index_ pc' = (step_index_ pc + n)%nat
    ∧ sequence_ pc' = sequence_ pc
    ∧ devices_manager_ pc'
      = dispatched_all (take n (drop (step_index_ pc) (sequence_ pc))) (devices_manager_ pc)
    ∧ ((0 < n)%nat →
       Some (getCurrentStep pc') = sequence_ pc !! (step_index_ pc + n - 1)%nat).
Proof. apply moveToNextStep_n_advance. Qed.

(** X18: a controller built with "init" over a file that opens, then
    stepped once for each remaining element, has dispatched the whole
    installed sequence in order, each step once; its current step is then
    "finished", [isSequenceCompleted] holds, and a further call would index
    the sequence out of range.  After fewer calls the sequence is not
    completed. *)
Theorem init_run_reaches_finished (lines : list string) :
  (∃ pc, (pc0 ← new_ProcessController "init" (Some lines);
          moveToNextStep_n (length (installed_sequence lines) - 1) pc0) = Some pc
     ∧ step_index_ pc = length (installed_sequence lines)
     ∧ getCurrentStep pc = "finished"
     ∧ isSequenceCompleted pc = true
     ∧ devices_manager_ pc = dispatched_all (installed_sequence lines) registered_manager
     ∧ moveToNextStep pc = None)
  ∧ ∀ (k : nat) pc,
      (k < length (installed_sequence lines) - 1)%nat →
      (pc0 ← new_ProcessController "init" (Some lines); moveToNextStep_n k pc0) = Some pc →
      isSequenceCompleted pc = false.
Proof.
  set (start := initializeSequences (Some lines) (initial_controller "init")).
  pose proof (installed_sequence_length lines) as Hlen.
  pose proof (installed_sequence_last lines) as Hlast.
  assert (advances start) as Hadv.
  { right. by destruct (initializeSequences_cursor (Some lines) (initial_controller "init")). }
  assert (step_index_ start = 0%nat) as Hidx.
  { by destruct (initializeSequences_cursor (Some lines) (initial_controller "init")). }
  assert (sequence_ start = installed_sequence lines) as Hseq by done.
  assert (devices_manager_ start = registered_manager) as Hdm.
  { unfold start, initializeSequences.
    destruct (compileSequence _); simpl; by repeat case_if. }
  assert (∀ n, (pc0 ← new_ProcessController "init" (Some lines); moveToNextStep_n n pc0)
               = moveToNextStep_n (S n) start) as Hcalls by done.
  split.
  - rewrite Hcalls.
    replace (S (length (installed_sequence lines) - 1))
      with (length (installed_sequence lines)) by lia.
    destruct (moveToNextStep_n_advance (length (installed_sequence lines)) start)
      as (pc & Hrun & Hidx' & Hseq' & Hdm' & Hcur); [done | rewrite Hidx, Hseq; lia |].
    rewrite Hidx, Hseq, Hdm in *. simpl in *.
    exists pc. split; [done|]. split; [done|].
    assert (getCurrentStep pc = "finished") as Hfinished.
    { specialize (Hcur Hlen). rewrite last_lookup in Hlast.
      replace (length (installed_sequence lines) - 1)%nat
        with (pred (length (installed_sequence lines))) in Hcur by lia.
      unfold getCurrentStep. congruence. }
    split; [done|]. split.
    { unfold isSequenceCompleted. apply bool_decide_eq_true. rewrite Hseq'. lia. }
    split.
    { by rewrite Hdm', drop_0, take_ge. }
    apply eq_None_not_Some. rewrite moveToNextStep_defined, Hseq', Hidx'. lia.
  - intros k pc Hk. rewrite Hcalls. intros Hrun.
    destruct (moveToNextStep_n_advance (S k) start)
      as (pc' & Hrun' & Hidx' & Hseq' & _); [done | rewrite Hidx, Hseq; lia |].
    assert (pc' = pc) as -> by congruence.
    unfold isSequenceCompleted. apply bool_decide_eq_false.
    rewrite Hseq', Hidx', Hidx, Hseq. lia.
Qed.
End RunProperties.

Lemma current_step_is_last_dispatched_witness :
  let pc : ProcessController Journal.t :=
    mk_controller "slider_init" 1 ["slider_init"; "finished"] (Journal.fresh true) in
  ∃ pc', moveToNextStep pc = Some pc'
    ∧ getCurrentStep pc' = "finished"
    ∧ Journal.commands (devices_manager_ pc') = ["finished"]
    ∧ devices_manager_ pc' = dispatched (getCurrentStep pc') (devices_manager_ pc).
Proof.
  intros pc. eexists. split; [reflexivity|]. split; [reflexivity|].
  split; [reflexivity|].
  apply (current_step_is_last_dispatched pc). reflexivity.
Defined.

Lemma steps_dispatched_in_order_witness :
  let pc : ProcessController Journal.t :=
    mk_controller "init" 0 ["slider_init"; "plc_buzz"; "finished"] (Journal.fresh true) in
  advances pc
  ∧ (step_index_ pc + 3 ≤ length (sequence_ pc))%nat
  ∧ ∃ pc', moveToNextStep_n 3 pc = Some pc'
      ∧ step_index_ pc' = 3%nat
      ∧ Journal.commands (devices_manager_ pc') = ["slider_init"; "plc_buzz"; "finished"]
      ∧ devices_manager_ pc'
        = dispatched_all (take 3 (drop (step_index_ pc) (sequence_ pc)))
            (devices_manager_ pc).
Proof.
  intros pc.
  assert (advances pc) as Hadv by (right; reflexivity).
  assert (step_index_ pc + 3 ≤ length (sequence_ pc))%nat as Hrange
    by (apply Nat.le_refl).
  split; [exact Hadv|]. split; [exact Hrange|].
  destruct (steps_dispatched_in_order pc 3 Hadv Hrange)
    as (pc' & Hrun & Hidx & _ & Hdm & _).
  exists pc'. split; [exact Hrun|]. split; [exact Hidx|]. split; [|exact Hdm].
  rewrite Hdm. reflexivity.
Defined.

Lemma bind_Return {A B} (a : A) (f : A → result B) : Return a ≫= f = f a.
Proof. reflexivity. Qed.

(** X19: a loop nested in a loop: with plain instructions [before] and
    [after] it in the outer body, the outer loop compiles to its body, in
    which the inner loop is already replaced by its own repeated block,
    repeated as a whole; the counts multiply. *)
Theorem nested_loop_expands_inside_out
    (outer_start outer_end inner_start inner_end : string)
    (id1 n1 id2 n2 : Z) (before inner after : list string) :
  parseLoopStart outer_start = Return (Some (id1, n1)) → 1 ≤ n1 →
  parseLoopEnd outer_end = Return (Some id1) →
  parseLoopStart inner_start = Return (Some (id2, n2)) → 1 ≤ n2 →
  parseLoopEnd inner_end = Return (Some id2) →
  Forall plain before → Forall plain inner → Forall plain after →
  compileSequence
    (outer_start :: (before ++ (inner_start :: inner ++ [inner_end]) ++ after)
       ++ [outer_end])
  = Return (repeated (Z.to_nat n1)
              (before ++ repeated (Z.to_nat n2) inner ++ after))
  ∧ length (repeated (Z.to_nat n1) (before ++ repeated (Z.to_nat n2) inner ++ after))
    = (Z.to_nat n1 * (length before + Z.to_nat n2 * length inner + length after))%nat.
Proof.
  intros Hstart1 Hn1 Hend1 Hstart2 Hn2 Hend2 Hbefore Hinner Hafter. split.
  - assert (∀ st, compile_lines (inner_start :: inner ++ [inner_end]) st
                  = Return (emit (repeated (Z.to_nat n2) inner) st)) as Hinner_loop.
    { apply (compile_lines_loop _ _ id2); [done..|].
      intros st. by apply compile_lines_plain. }
    assert (∀ st, compile_lines
                    (before ++ (inner_start :: inner ++ [inner_end]) ++ after) st
                  = Return (emit (before ++ repeated (Z.to_nat n2) inner ++ after) st))
      as Hbody.
    { intros st. rewrite (compile_lines_app before), compile_lines_plain by done.
      rewrite bind_Return, (compile_lines_app (inner_start :: inner ++ [inner_end]) after).
      rewrite Hinner_loop, bind_Return, compile_lines_plain by done.
      by rewrite !emit_emit. }
    unfold compileSequence.
    by rewrite (compile_lines_loop _ _ id1 n1 _ _ Hstart1 Hn1 Hend1 Hbody).
  - rewrite length_repeated, !length_app, length_repeated. lia.
Qed.

Lemma nested_loop_expands_inside_out_witness :
  Forall plain ["a"] ∧ Forall plain ["b"] ∧ Forall plain ["c"]
  ∧ compileSequence
      ("loop1_2" :: (["a"] ++ ("loop2_3" :: ["b"] ++ ["loop2_end"]) ++ ["c"])
         ++ ["loop1_end"])
    = Return ["a"; "b"; "b"; "b"; "c"; "a"; "b"; "b"; "b"; "c"].
Proof.
  assert (∀ line, plain line → Forall plain [line]) as Hone
    by (intros line Hline; constructor; [exact Hline | constructor]).
  assert (plain "a" ∧ plain "b" ∧ plain "c") as (Ha & Hb & Hc)
    by (repeat split).
  split; [exact (Hone _ Ha)|]. split; [exact (Hone _ Hb)|]. split; [exact (Hone _ Hc)|].
  apply (nested_loop_expands_inside_out "loop1_2" "loop1_end" "loop2_3" "loop2_end"
           1 2 2 3 ["a"] ["b"] ["c"]);
    [reflexivity | lia | reflexivity | reflexivity | lia | reflexivity
    | exact (Hone _ Ha) | exact (Hone _ Hb) | exact (Hone _ Hc)].
Defined.

(** X20: when the file cannot be opened and the command is not "init",
    the constructor succeeds with an empty sequence: [isSequenceCompleted]
    holds from the start, and yet every call of [moveToNextStep] is defined
    and dispatches the command again. *)
Theorem load_failure_with_other_command
    {D : Type} {M : DeviceStateManager D} (command : string) :
  command ≠ "init" →
  ∃ pc0 : ProcessController D,
    new_ProcessController command None = Some pc0
    ∧ sequence_ pc0 = []
    ∧ isSequenceCompleted pc0 = true
    ∧ ∀ n, ∃ pc, moveToNextStep_n n pc0 = Some pc
        ∧ sequence_ pc = [] ∧ getCurrentStep pc = command
        ∧ devices_manager_ pc = Nat.iter n (dispatched command) (devices_manager_ pc0).
Proof.
  intros Hcommand. unfold new_ProcessController. simpl.
  rewrite moveToNextStep_redispatch by done. simpl.
  eexists. split; [done|]. split; [done|]. split; [done|].
  set (d := dispatched command registered_manager). clearbody d.
  intros n. revert d. induction n as [|n IH]; intros d.
  - eexists. by repeat split.
  - simpl moveToNextStep_n. rewrite moveToNextStep_redispatch by done. simpl.
    destruct (IH (dispatched command d)) as (pc & Hrun & Hseq & Hcur & Hdm).
    exists pc. repeat split; [done..|]. simpl in Hdm. rewrite Hdm.
    symmetry. apply (Nat.iter_succ_r n (dispatched command) d).
Qed.

Lemma load_failure_with_other_command_witness :
  "slider_init" ≠ "init"
  ∧ ∃ pc0 : ProcessController Journal.t,
      new_ProcessController "slider_init" None = Some pc0
      ∧ sequence_ pc0 = []
      ∧ isSequenceCompleted pc0 = true
      ∧ ∃ pc, moveToNextStep_n 2 pc0 = Some pc
          ∧ Journal.commands (devices_manager_ pc)
            = ["slider_init"; "slider_init"; "slider_init"].
Proof.
  assert ("slider_init" ≠ "init") as Hcommand by discriminate.
  split; [exact Hcommand|].
  destruct (load_failure_with_other_command (D := Journal.t) "slider_init" Hcommand)
    as (pc0 & Hnew & Hseq & Hdone & Hrun).
  exists pc0. split; [exact Hnew|]. split; [exact Hseq|]. split; [exact Hdone|].
  destruct (Hrun 2%nat) as (pc & Hpc & _ & _ & Hdm).
  exists pc. split; [exact Hpc|]. rewrite Hdm.
  vm_compute in Hnew. injection Hnew as <-. reflexivity.
Defined.
